(** * Search-input query parser: serializer, IN validator and parse driver

    A shallow embedding of
      - [src/search-input-query-parser/src/parser.ts]
        ([stringify], [parseSearchInputQuery]) and
      - [src/search-input-query-parser/src/validate-in-expression.ts]
        ([validateInExpression]),
    together with the properties the specification states about them.

    JavaScript strings are modelled as [string] and read as ASCII text
    (a character above 127 is kept as it is by the case conversions and is
    never whitespace), numbers that hold offsets as [Z], arrays as [list],
    [Set]/[Map] keyed by strings as stdpp's [gset]/[gmap]. *)

From Stdlib Require Import ZArith Lia Bool Ascii String List.
From Stdlib Require Import DecimalString Sorting.Sorted Sorting.Permutation.
From stdpp Require Import base strings gmap.
Import ListNotations.

Local Open Scope string_scope.
Local Open Scope Z_scope.

(** ** JavaScript string primitives *)

Module JS.

(** The character U+0022, written through its code so that no literal
    carries a quotation mark. *)
Definition dquote_char : ascii := ascii_of_nat 34.
Definition dquote : string := String dquote_char EmptyString.

(** [s.includes(sub)] *)
Fixpoint includes (s sub : string) : bool :=
  if String.prefix sub s then true
  else match s with
       | EmptyString => false
       | String _ s' => includes s' sub
       end.

(** [s.length], as a number. *)
Definition strlen (s : string) : Z := Z.of_nat (String.length s).

Definition chars (s : string) : list ascii := list_ascii_of_string s.

Definition is_lower (c : ascii) : bool :=
  let n := nat_of_ascii c in (97 <=? n)%nat && (n <=? 122)%nat.
Definition is_upper (c : ascii) : bool :=
  let n := nat_of_ascii c in (65 <=? n)%nat && (n <=? 90)%nat.
Definition is_digit (c : ascii) : bool :=
  let n := nat_of_ascii c in (48 <=? n)%nat && (n <=? 57)%nat.
Definition is_alpha (c : ascii) : bool := is_lower c || is_upper c.

Definition upper_char (c : ascii) : ascii :=
  if is_lower c then ascii_of_nat (nat_of_ascii c - 32) else c.
Definition lower_char (c : ascii) : ascii :=
  if is_upper c then ascii_of_nat (nat_of_ascii c + 32) else c.

(** [s.toUpperCase()] and [s.toLowerCase()] on ASCII text: the letters
    a-z and A-Z are mapped, every other character is kept. *)
Fixpoint toUpperCase (s : string) : string :=
  match s with
  | EmptyString => EmptyString
  | String c s' => String (upper_char c) (toUpperCase s')
  end.
Fixpoint toLowerCase (s : string) : string :=
  match s with
  | EmptyString => EmptyString
  | String c s' => String (lower_char c) (toLowerCase s')
  end.

(** The ASCII characters the regular-expression class [\s] accepts:
    TAB, LF, VT, FF, CR and SPACE. *)
Definition is_whitespace (c : ascii) : bool :=
  let n := nat_of_ascii c in
  ((9 <=? n)%nat && (n <=? 13)%nat) || (n =? 32)%nat.

(** Number-to-string conversion of an integer, as a template literal
    performs it. *)
Definition number_to_string (z : Z) : string :=
  NilZero.string_of_int (Z.to_int z).

(** [arr.join(sep)] *)
Fixpoint join (sep : string) (l : list string) : string :=
  match l with
  | [] => ""
  | [x] => x
  | x :: l' => x ++ sep ++ join sep l'
  end.

End JS.

(** ** Second-pass AST ([parser.ts], lines 17-97) *)

Record PositionLength := mkPL { position : Z; length : Z }.

Record Field := mkField { field_value : string; field_pl : PositionLength }.
Record Value := mkValue { value_value : string; value_pl : PositionLength }.

Inductive RangeOperator := GE | GT | LE | LT | BETWEEN.

Inductive Expression : Type :=
| SEARCH_TERM (value : string) (pl : PositionLength)
| WILDCARD (prefix : string) (quoted : bool) (pl : PositionLength)
| FIELD_VALUE (field : Field) (value : Value)
| RANGE (field : Field) (operator : RangeOperator) (value : Value)
        (value2 : option Value) (pl : PositionLength)
| AND (left right : Expression) (pl : PositionLength)
| OR (left right : Expression) (pl : PositionLength)
| NOT (expression : Expression) (pl : PositionLength)
| IN (field : Field) (values : list Value) (pl : PositionLength).

(** The text of a range operator inside a template literal. [BETWEEN] is
    never printed by [stringify]; it is listed for completeness. *)
Definition operator_text (op : RangeOperator) : string :=
  match op with
  | GE => ">=" | GT => ">" | LE => "<=" | LT => "<" | BETWEEN => "BETWEEN"
  end.

(** ** [stringify] ([parser.ts], lines 100-126) *)

(** The quoting used for search terms and IN values:
    [v.includes(" ") ? `"${v}"` : v]. *)
Definition quote_if_space (v : string) : string :=
  if JS.includes v " " then JS.dquote ++ v ++ JS.dquote else v.

(** [`${expr.value2?.value}`]: an absent second bound prints as the text
    [undefined]. *)
Definition value2_text (value2 : option Value) : string :=
  match value2 with
  | Some v => value_value v
  | None => "undefined"
  end.

Fixpoint stringify (expr : Expression) : string :=
  match expr with
  | SEARCH_TERM value _ => quote_if_space value
  | WILDCARD prefix quoted _ =>
      if quoted then JS.dquote ++ prefix ++ "*" ++ JS.dquote
      else prefix ++ "*"
  | FIELD_VALUE field value => field_value field ++ ":" ++ value_value value
  | RANGE field operator value value2 _ =>
      match operator with
      | BETWEEN =>
          field_value field ++ ":" ++ value_value value ++ ".."
                      ++ value2_text value2
      | _ => field_value field ++ ":" ++ operator_text operator
                         ++ value_value value
      end
  | NOT expression _ => "NOT (" ++ stringify expression ++ ")"
  | AND l r _ => "(" ++ stringify l ++ " AND " ++ stringify r ++ ")"
  | OR l r _ => "(" ++ stringify l ++ " OR " ++ stringify r ++ ")"
  | IN field values _ =>
      let values :=
        JS.join "," (map (fun v => quote_if_space (value_value v)) values) in
      field_value field ++ ":IN(" ++ values ++ ")"
  end.

(** ** Diagnostics *)

(** Modelled from the spec: the enumeration [SearchQueryErrorCode] is
    declared in [validator.ts], which is not part of the sources at hand;
    section 7 lists the codes the core uses. *)
Inductive SearchQueryErrorCode :=
| INVALID_FIELD_CHARS
| RESERVED_WORD_AS_FIELD
| INVALID_IN_VALUE
| UNKNOWN_FIELD
| TYPE_MISMATCH.

Definition code_eqb (a b : SearchQueryErrorCode) : bool :=
  match a, b with
  | INVALID_FIELD_CHARS, INVALID_FIELD_CHARS
  | RESERVED_WORD_AS_FIELD, RESERVED_WORD_AS_FIELD
  | INVALID_IN_VALUE, INVALID_IN_VALUE
  | UNKNOWN_FIELD, UNKNOWN_FIELD
  | TYPE_MISMATCH, TYPE_MISMATCH => true
  | _, _ => false
  end.

(** [ValidationError]: [{message, code, value?, position, length}]. The
    object thrown at [parser.ts] line 145 has no [code]; [code] and [value]
    are therefore optional. [position] and [length] are reached through
    the coercion to [PositionLength]. *)
Record ValidationError := mkError {
  message : string;
  code : option SearchQueryErrorCode;
  value : option string;
  error_pl :> PositionLength
}.

Definition has_code (c : SearchQueryErrorCode) (e : ValidationError) : bool :=
  match code e with
  | Some c' => code_eqb c c'
  | None => false
  end.

(** Modelled from the spec: the constant [reservedWords] is exported by
    [validator.ts]; sections 4.3 and 6 give its members. *)
Definition reservedWords : gset string := {[ "AND"; "OR"; "NOT"; "IN" ]}.

(** ** [validateInExpression] ([validate-in-expression.ts]) *)

(** The first-pass IN node, with the fields the validator reads:
    [field] and the entries of [values] are plain strings. *)
Record InExpression := mkIn {
  field : string;
  values : list string;
  in_pl :> PositionLength
}.

(** [/^[a-zA-Z][a-zA-Z0-9_-]*$/.test(s)]; without the [m] flag [$] matches
    at the end of the input only. *)
Definition is_field_char (c : ascii) : bool :=
  JS.is_alpha c || JS.is_digit c || Ascii.eqb c "_" || Ascii.eqb c "-".

Definition field_pattern_test (s : string) : bool :=
  match s with
  | EmptyString => false
  | String c rest => JS.is_alpha c && forallb is_field_char (JS.chars rest)
  end.

(** [arr.forEach((value, index) => ...)] over a callback that updates the
    list of diagnostics. *)
Fixpoint forEach {A S : Type} (f : S -> A -> Z -> S) (arr : list A)
         (index : Z) (s : S) : S :=
  match arr with
  | [] => s
  | x :: arr' => forEach f arr' (index + 1) (f s x index)
  end.

(** [errors.push(e)] *)
Definition push {A : Type} (arr : list A) (e : A) : list A := arr ++ [e].

(** The array [errors] is extended in place by the source; the embedding
    returns the array as it stands when the function returns. *)
Definition validateInExpression (expr : InExpression)
           (errors : list ValidationError) : list ValidationError :=
  (* Validate field name pattern *)
  let errors :=
    if negb (field_pattern_test (field expr)) then
      push errors {| message := "Invalid characters in field name";
                     code := Some INVALID_FIELD_CHARS;
                     value := None;
                     error_pl := mkPL (position expr)
                                      (JS.strlen (field expr)) |}
    else errors in
  (* Check for reserved words *)
  let errors :=
    if bool_decide (JS.toUpperCase (field expr) ∈ reservedWords) then
      push errors {| message := field expr ++ " is a reserved word";
                     code := Some RESERVED_WORD_AS_FIELD;
                     value := Some (field expr);
                     error_pl := mkPL (position expr)
                                      (JS.strlen (field expr)) |}
    else errors in
  (* Validate value format *)
  forEach (fun errors value index =>
             if JS.includes value "," then
               push errors
                    {| message := "Invalid character in IN value";
                       code := Some INVALID_IN_VALUE;
                       value := None;
                       error_pl :=
                         mkPL (position expr + JS.strlen (field expr) + 3
                               + index * (JS.strlen value + 1))
                              (JS.strlen value) |}
             else errors)
          (values expr) 0 errors.

(** ** Merging the two lists of diagnostics ([parser.ts], lines 170-185) *)

(** [arr.sort(cmp)]: the sort is stable, and for a comparator that is a
    consistent order the result is the one stable sorted arrangement;
    insertion from the right, placing an element before the first one
    that does not compare below it, computes that arrangement. *)
Fixpoint sort_insert {A : Type} (cmp : A -> A -> Z) (x : A) (l : list A)
  : list A :=
  match l with
  | [] => [x]
  | y :: l' => if cmp x y <=? 0 then x :: y :: l'
               else y :: sort_insert cmp x l'
  end.

Definition sort {A : Type} (cmp : A -> A -> Z) (l : list A) : list A :=
  fold_right (sort_insert cmp) [] l.

(** [`${position}-${length}`] *)
Definition errorKey (e : ValidationError) : string :=
  JS.number_to_string (position e) ++ "-" ++ JS.number_to_string (length e).

(** [keys.includes(k)] on an array of strings. *)
Definition array_includes (arr : list string) (k : string) : bool :=
  existsb (String.eqb k) arr.

Definition mergeErrors (errors fieldErrors : list ValidationError)
  : list ValidationError :=
  let fieldErrorKeys := map errorKey fieldErrors in
  let errorsToRemove :=
    List.filter (fun e : ValidationError =>
                   array_includes fieldErrorKeys (errorKey e)) errors in
  let fieldErrorsFiltered :=
    List.filter
      (fun fe : ValidationError =>
         negb (existsb (fun error : ValidationError =>
                          (position error =? position fe)
                          && (length error =? length fe))
                       errorsToRemove))
      fieldErrors in
  sort (fun a b : ValidationError => position a - position b)
       (errors ++ fieldErrorsFiltered).

(** ** The lexer interface used by the driver *)

Module Lexer.

Inductive Keyword := KW_AND | KW_OR | KW_NOT | KW_IN.

Inductive RangeOp := OP_GE | OP_LE | OP_GT | OP_LT | OP_DOTS.

(** Modelled from the spec: [TokenType] is declared in [lexer.ts], which
    is not part of the sources at hand. The kinds are those of section 3;
    [UNTERMINATED_STRING] is the distinguishable token of section 4.1 for
    a quoted string that is never closed. [parser.ts] itself only names
    [TokenType.EOF]. *)
Inductive TokenType :=
| KEYWORD (k : Keyword)
| FIELD_NAME
| COLON
| QUOTED_STRING
| NUMBER
| DATE
| BARE_VALUE
| WILDCARD_FRAGMENT
| RANGE_OPERATOR (op : RangeOp)
| LPAREN
| RPAREN
| COMMA
| IDENTIFIER
| UNTERMINATED_STRING
| EOF.

Definition is_EOF (t : TokenType) : bool :=
  match t with EOF => true | _ => false end.

(** Modelled from the spec: a token is [{kind, text, position, length}]
    (section 3); the driver reads the kind as [.type]. For a quoted
    string [text] is the content between the quotation marks, while
    [position] and [length] cover the marks too. *)
Record Token := mkToken {
  type : TokenType;
  text : string;
  token_pl :> PositionLength
}.

(** Modelled from the spec: the token stream is the token sequence and a
    cursor; [createStream] and [currentToken] are helpers of [lexer.ts].
    Reading past the last token yields an end-of-input token. *)
Record TokenStream := mkStream {
  tokens : list Token;
  cursor : nat
}.

(** Modelled from the spec: [createStream] of [lexer.ts], a stream with
    its cursor on the first token. *)
Definition createStream (tokens : list Token) : TokenStream :=
  mkStream tokens 0.

Definition end_position (tokens : list Token) : Z :=
  match last tokens with
  | Some t => position t + length t
  | None => 0
  end.

(** Modelled from the spec: [currentToken] of [lexer.ts], the token under
    the cursor, and an end-of-input token once the cursor is past the
    sequence. *)
Definition currentToken (stream : TokenStream) : Token :=
  match tokens stream !! cursor stream with
  | Some t => t
  | None => mkToken EOF "" (mkPL (end_position (tokens stream)) 0)
  end.

Definition advance (stream : TokenStream) : TokenStream :=
  mkStream (tokens stream) (S (cursor stream)).

End Lexer.
Import Lexer.

(** ** The first-pass syntax tree *)

Module FirstPass.

(** Modelled from the spec: the node types are declared in
    [first-pass-parser.ts], which is not part of the sources at hand, the
    IN node apart, whose shape [validate-in-expression.ts] fixes. The
    variants are those of section 3; every node carries the position and
    length of its full extent, field names and values those of their
    tokens. *)
Inductive FirstPassExpression : Type :=
| TERM (value : string) (quoted : bool) (pl : PositionLength)
| WILDCARD (prefix : string) (quoted : bool) (pl : PositionLength)
| FIELD_VALUE (field : Field) (value : Value) (pl : PositionLength)
| RANGE (field : Field) (operator : RangeOperator) (value : Value)
        (value2 : option Value) (pl : PositionLength)
| AND (left right : FirstPassExpression) (pl : PositionLength)
| OR (left right : FirstPassExpression) (pl : PositionLength)
| NOT (expression : FirstPassExpression) (pl : PositionLength)
| IN (expr : InExpression).

Definition node_pl (e : FirstPassExpression) : PositionLength :=
  match e with
  | TERM _ _ pl | WILDCARD _ _ pl | FIELD_VALUE _ _ pl
  | RANGE _ _ _ _ pl | AND _ _ pl | OR _ _ pl | NOT _ pl => pl
  | IN expr => in_pl expr
  end.

(** What [parseExpression] returns: [{result, stream}]. *)
Record ParseResult := mkParseResult {
  result : FirstPassExpression;
  stream : TokenStream
}.

End FirstPass.

(** ** Completions and the stages the driver calls *)

(** A call either returns normally or throws. The value thrown ends up in
    an array typed [ValidationError[]], and the one [throw] of the driver
    throws an object of that shape, so thrown values are given that type. *)
Inductive Completion (A : Type) : Type :=
| Normal (a : A)
| Throw (error : ValidationError).
Arguments Normal {A} a.
Arguments Throw {A} error.

Inductive FieldType := TString | TNumber | TDate | TBoolean.

Record FieldSchema := mkSchema { name : string; schema_type : FieldType }.

(** The functions [parseSearchInputQuery] imports. Their sources are not at
    hand, so the driver is stated over any implementation of them; each may
    return or throw. [validateExpressionFields] appends to the array it is
    given: the embedding returns the array as it stands afterwards. *)
Record Stages := mkStages {
  tokenize : string -> Completion (list Token);
  parseExpression : TokenStream -> Completion FirstPass.ParseResult;
  validateSearchQuery :
    FirstPass.FirstPassExpression -> Completion (list ValidationError);
  validateExpressionFields :
    FirstPass.FirstPassExpression -> gset string -> list ValidationError ->
    gmap string FieldSchema -> Completion (list ValidationError);
  transformToExpression :
    FirstPass.FirstPassExpression -> gmap string FieldSchema ->
    Completion Expression
}.

Inductive Stage :=
| TOKENIZE
| PARSE_EXPRESSION
| VALIDATE_SEARCH_QUERY
| VALIDATE_EXPRESSION_FIELDS
| TRANSFORM_TO_EXPRESSION.

(** Computations that may throw and that record, in order, which stages
    they have called. *)
Definition Eff (A : Type) : Type := list Stage -> Completion A * list Stage.

Definition ret {A : Type} (a : A) : Eff A := fun log => (Normal a, log).

Definition throw {A : Type} (error : ValidationError) : Eff A :=
  fun log => (Throw error, log).

Definition bind {A B : Type} (m : Eff A) (k : A -> Eff B) : Eff B :=
  fun log =>
    match m log with
    | (Normal a, log') => k a log'
    | (Throw error, log') => (Throw error, log')
    end.

(** Calling stage [s], whose completion is [c]. *)
Definition call {A : Type} (s : Stage) (c : Completion A) : Eff A :=
  fun log => (c, (log ++ [s])%list).

(** [try { body } catch (error) { handler }] *)
Definition try_catch {A : Type} (body : Eff A)
           (handler : ValidationError -> Eff A) : Eff A :=
  fun log =>
    match body log with
    | (Normal a, log') => (Normal a, log')
    | (Throw error, log') => handler error log'
    end.

Definition run {A : Type} (m : Eff A) : Completion A * list Stage := m [].

Declare Scope eff_scope.
Delimit Scope eff_scope with eff.
Notation "'let*' x ':=' m 'in' k" := (bind m (fun x => k))
  (at level 10, x name, m at level 100, k at level 200) : eff_scope.

(** ** [parseSearchInputQuery] ([parser.ts], lines 129-208) *)

Inductive QueryType := SEARCH_QUERY | SEARCH_QUERY_ERROR.

(** The object returned: [errors] is [None] when the object has no such
    property, [expression] is [None] when the property holds [null]. *)
Record QueryResult := mkResult {
  query_type : QueryType;
  expression : option Expression;
  errors : option (list ValidationError)
}.

(** [new Map(entries)]: a later entry replaces an earlier one with the same
    key. *)
Definition Map_of_entries {V : Type} (entries : list (string * V))
  : gmap string V :=
  fold_left (fun m kv => <[fst kv := snd kv]> m) entries ∅.

Definition unexpected_rparen (finalToken : Token) : ValidationError :=
  {| message := "Unexpected " ++ JS.dquote ++ ")" ++ JS.dquote;
     code := None;
     value := None;
     error_pl := mkPL (position finalToken) (length finalToken) |}.

Section Driver.

Variable st : Stages.

Local Open Scope eff_scope.

(** The body of the [try] block. *)
Definition try_block (input : string) (fieldSchemas : list FieldSchema)
  : Eff QueryResult :=
  let* tokens := call TOKENIZE (tokenize st input) in
  let stream := createStream tokens in
  if is_EOF (type (currentToken stream)) then
    ret (mkResult SEARCH_QUERY None None)
  else
    let* result := call PARSE_EXPRESSION (parseExpression st stream) in
    let finalToken := currentToken (FirstPass.stream result) in
    if negb (is_EOF (type finalToken)) then
      throw (unexpected_rparen finalToken)
    else
      let* errors :=
        call VALIDATE_SEARCH_QUERY
             (validateSearchQuery st (FirstPass.result result)) in
      let fieldErrors : list ValidationError := [] in
      let allowedFields :=
        map (fun s => JS.toLowerCase (name s)) fieldSchemas in
      let* fieldErrors :=
        (if (0 <? List.length allowedFields)%nat then
           let columnSet : gset string :=
             list_to_set (map JS.toLowerCase allowedFields) in
           let schemaMap :=
             Map_of_entries
               (map (fun s => (JS.toLowerCase (name s), s)) fieldSchemas) in
           call VALIDATE_EXPRESSION_FIELDS
                (validateExpressionFields st (FirstPass.result result)
                                          columnSet fieldErrors schemaMap)
         else ret fieldErrors) in
      let allErrors := mergeErrors errors fieldErrors in
      if (0 <? List.length allErrors)%nat then
        ret (mkResult SEARCH_QUERY_ERROR None (Some allErrors))
      else
        let schemaMap :=
          Map_of_entries
            (map (fun s => (JS.toLowerCase (name s), s)) fieldSchemas) in
        let* expression :=
          call TRANSFORM_TO_EXPRESSION
               (transformToExpression st (FirstPass.result result)
                                      schemaMap) in
        ret (mkResult SEARCH_QUERY (Some expression) None).

Definition parseSearchInputQuery (input : string)
           (fieldSchemas : list FieldSchema) : Eff QueryResult :=
  try_catch (try_block input fieldSchemas)
            (fun error =>
               ret (mkResult SEARCH_QUERY_ERROR None (Some [error]))).

End Driver.

(** ** The tokenizer of section 4.1 *)

Module SpecLexer.

Definition len (cs : list ascii) : Z := Z.of_nat (List.length cs).
Definition str (cs : list ascii) : string := string_of_list_ascii cs.

Definition is_dquote (c : ascii) : bool := Ascii.eqb c JS.dquote_char.

(** Characters that end a run of word characters wherever they stand. *)
Definition is_separator (c : ascii) : bool :=
  JS.is_whitespace c || Ascii.eqb c "(" || Ascii.eqb c ")"
  || Ascii.eqb c "," || Ascii.eqb c ":" || is_dquote c
  || Ascii.eqb c ">" || Ascii.eqb c "<".

(** Rule (d): the range operators, the two-character ones first. *)
Definition range_operator (cs : list ascii)
  : option (RangeOp * list ascii * list ascii) :=
  match cs with
  | ">" :: "=" :: rest => Some (OP_GE, [">"; "="], rest)
  | "<" :: "=" :: rest => Some (OP_LE, ["<"; "="], rest)
  | "." :: "." :: rest => Some (OP_DOTS, ["."; "."], rest)
  | ">" :: rest => Some (OP_GT, [">"], rest)
  | "<" :: rest => Some (OP_LT, ["<"], rest)
  | _ => None
  end%char.

Definition starts_with_dots (cs : list ascii) : bool :=
  match cs with
  | "." :: "." :: _ => true
  | _ => false
  end%char.

(** The longest run of word characters at the head of the input, and
    what follows it. *)
Fixpoint take_word (cs : list ascii) : list ascii * list ascii :=
  match cs with
  | [] => ([], [])
  | c :: rest =>
      if is_separator c || starts_with_dots cs then ([], cs)
      else let (w, r) := take_word rest in (c :: w, r)
  end.

(** The content of a quoted string whose opening mark has been read, and
    what follows the closing mark; [None] when the string is never
    closed. *)
Fixpoint take_quoted (cs : list ascii)
  : option (list ascii * list ascii) :=
  match cs with
  | [] => None
  | c :: rest =>
      if is_dquote c then Some ([], rest)
      else match take_quoted rest with
           | Some (content, r) => Some (c :: content, r)
           | None => None
           end
  end.

(** Rule (c): a number is an optional minus sign, digits, and an
    optional decimal part. *)
Fixpoint all_digits (cs : list ascii) : bool :=
  match cs with
  | [] => true
  | c :: rest => JS.is_digit c && all_digits rest
  end.

Fixpoint digits_then_fraction (cs : list ascii) (seen : bool) : bool :=
  match cs with
  | [] => seen
  | c :: rest =>
      if JS.is_digit c then digits_then_fraction rest true
      else if Ascii.eqb c "." then
             seen && negb (Nat.eqb (List.length rest) 0) && all_digits rest
           else false
  end.

Definition is_number (cs : list ascii) : bool :=
  match cs with
  | "-"%char :: rest => digits_then_fraction rest false
  | _ => digits_then_fraction cs false
  end.

(** Rule (c): an ISO date, four digits, two digits, two digits. *)
Definition is_date (cs : list ascii) : bool :=
  match cs with
  | [y1; y2; y3; y4; d1; m1; m2; d2; a1; a2] =>
      all_digits [y1; y2; y3; y4; m1; m2; a1; a2]
      && Ascii.eqb d1 "-" && Ascii.eqb d2 "-"
  | _ => false
  end.

Definition keyword_of (w : string) : option Keyword :=
  let u := JS.toUpperCase w in
  if String.eqb u "AND" then Some KW_AND
  else if String.eqb u "OR" then Some KW_OR
  else if String.eqb u "NOT" then Some KW_NOT
  else if String.eqb u "IN" then Some KW_IN
  else None.

Definition ends_with_star (cs : list ascii) : bool :=
  match last cs with
  | Some c => Ascii.eqb c "*"
  | None => false
  end.

Definition head_is (c : ascii) (cs : list ascii) : bool :=
  match cs with
  | c' :: _ => Ascii.eqb c c'
  | [] => false
  end.

(** The kind of a run of word characters [w] followed by [rest]:
    - rule (b): a word that a colon follows at once is a field name,
      whatever the word is;
    - rule (c): in value position (right after a colon or a range
      operator) the word is [IN] opening a list, a number, a date or a
      plain value;
    - rule (a): elsewhere the four keywords, in any case;
    - a word that ends in a star is a wildcard fragment;
    - rule (f): any other word is an identifier. *)
Definition classify_word (valuePosition : bool) (w rest : list ascii)
  : TokenType :=
  if head_is ":" rest then FIELD_NAME
  else if valuePosition then
    if String.eqb (JS.toUpperCase (str w)) "IN" && head_is "(" rest
    then KEYWORD KW_IN
    else if is_number w then NUMBER
    else if is_date w then DATE
    else BARE_VALUE
  else
    match keyword_of (str w) with
    | Some k => KEYWORD k
    | None => if ends_with_star w then WILDCARD_FRAGMENT else IDENTIFIER
    end.

Definition eof (pos : Z) : Token := mkToken EOF "" (mkPL pos 0).

(** One token per step; whitespace is dropped and still moves the
    position on (rule (e)). [fuel] bounds the number of steps; every step
    consumes at least one character. *)
Fixpoint scan (fuel : nat) (pos : Z) (valuePosition : bool)
         (cs : list ascii) : list Token :=
  match fuel with
  | O => [eof pos]
  | S fuel' =>
      match cs with
      | [] => [eof pos]
      | c :: rest =>
          if JS.is_whitespace c then scan fuel' (pos + 1) false rest
          else if Ascii.eqb c "(" then
            mkToken LPAREN "(" (mkPL pos 1) :: scan fuel' (pos + 1) false rest
          else if Ascii.eqb c ")" then
            mkToken RPAREN ")" (mkPL pos 1) :: scan fuel' (pos + 1) false rest
          else if Ascii.eqb c "," then
            mkToken COMMA "," (mkPL pos 1) :: scan fuel' (pos + 1) false rest
          else if Ascii.eqb c ":" then
            mkToken COLON ":" (mkPL pos 1) :: scan fuel' (pos + 1) true rest
          else if is_dquote c then
            match take_quoted rest with
            | Some (content, rest') =>
                mkToken QUOTED_STRING (str content)
                        (mkPL pos (len content + 2))
                :: scan fuel' (pos + len content + 2) false rest'
            | None =>
                [mkToken UNTERMINATED_STRING (str rest)
                         (mkPL pos (len rest + 1));
                 eof (pos + len rest + 1)]
            end
          else
            match range_operator cs with
            | Some (op, txt, rest') =>
                mkToken (RANGE_OPERATOR op) (str txt) (mkPL pos (len txt))
                :: scan fuel' (pos + len txt) true rest'
            | None =>
                let (w, rest') := take_word cs in
                mkToken (classify_word valuePosition w rest') (str w)
                        (mkPL pos (len w))
                :: scan fuel' (pos + len w) false rest'
            end
      end
  end.

(** Modelled from the spec: [tokenize] is defined in [lexer.ts], which is
    not part of the sources at hand. Section 4.1: a total function from
    the input text to a token sequence that an end-of-input token closes,
    with the rules (a) to (f); it never raises. Choices the section
    leaves open: quoted strings have no escape sequences; every
    character that is not whitespace, a parenthesis, a comma, a colon, a
    quotation mark or the start of a range operator counts as a word
    character. *)
Definition tokenize (input : string) : list Token :=
  let cs := JS.chars input in
  scan (S (List.length cs)) 0 false cs.

End SpecLexer.

(** ** The syntax parser of section 4.2 *)

Definition cbind {A B : Type} (c : Completion A) (k : A -> Completion B)
  : Completion B :=
  match c with
  | Normal a => k a
  | Throw error => Throw error
  end.

Declare Scope completion_scope.
Delimit Scope completion_scope with completion.
Notation "'let?' x ':=' c 'in' k" := (cbind c (fun x => k))
  (at level 10, x name, c at level 100, k at level 200) : completion_scope.

Module SpecParser.

Import FirstPass.
Local Open Scope completion_scope.

(** The single diagnostic of a structural error: it carries the position
    and length of the token that does not fit. *)
Definition unexpected {A : Type} (what : string) (t : Token)
  : Completion A :=
  Throw {| message := what; code := None; value := None;
           error_pl := mkPL (position t) (length t) |}.

Definition pl_end (p : PositionLength) : Z := position p + length p.

(** The span from the start of [a] to the end of [b]. *)
Definition span (a b : PositionLength) : PositionLength :=
  mkPL (position a) (pl_end b - position a).

Definition drop_last_char (w : string) : string :=
  SpecLexer.str (removelast (JS.chars w)).

Definition is_value_token (t : TokenType) : bool :=
  match t with
  | QUOTED_STRING | NUMBER | DATE | BARE_VALUE => true
  | _ => false
  end.

(** An entry of an IN list: any literal token. *)
Definition is_list_entry (t : TokenType) : bool :=
  match t with
  | QUOTED_STRING | NUMBER | DATE | BARE_VALUE | IDENTIFIER
  | WILDCARD_FRAGMENT => true
  | _ => false
  end.

Definition value_of (t : Token) : Value := mkValue (text t) (token_pl t).

(** [value], a literal in value position. *)
Definition parseValue (s : TokenStream) : Completion (Value * TokenStream) :=
  let t := currentToken s in
  if is_value_token (type t) then Normal (value_of t, advance s)
  else unexpected "Expected a value" t.

(** [value (',' value)* ')'], the entries of an IN list after its opening
    parenthesis; the result is the entries and the stream past the
    closing parenthesis, whose token is returned too. *)
Fixpoint parseInValues (fuel : nat) (s : TokenStream)
  : Completion (list string * Token * TokenStream) :=
  match fuel with
  | O => unexpected "Maximum nesting depth exceeded" (currentToken s)
  | S fuel' =>
      let t := currentToken s in
      if is_list_entry (type t) then
        let s1 := advance s in
        let t1 := currentToken s1 in
        match type t1 with
        | COMMA =>
            let? r := parseInValues fuel' (advance s1) in
            let '(vs, close, s2) := r in
            Normal (text t :: vs, close, s2)
        | RPAREN => Normal ([text t], t1, advance s1)
        | _ => unexpected "Expected , or )" t1
        end
      else unexpected "Expected a value" t
  end.

Definition range_operator_of (op : RangeOp) : option RangeOperator :=
  match op with
  | OP_GE => Some GE | OP_LE => Some LE
  | OP_GT => Some GT | OP_LT => Some LT
  | OP_DOTS => None
  end.

(** What may follow [field ':']: an IN list, a one-sided range, a
    two-sided range or a plain value. *)
Definition parseFieldRest (fuel : nat) (f : Token) (s : TokenStream)
  : Completion ParseResult :=
  let fld := mkField (text f) (token_pl f) in
  let t := currentToken s in
  match type t with
  | KEYWORD KW_IN =>
      let s1 := advance s in
      match type (currentToken s1) with
      | LPAREN =>
          let? r := parseInValues fuel (advance s1) in
          let '(vs, close, s2) := r in
          Normal (mkParseResult
                    (IN (mkIn (text f) vs (span f close))) s2)
      | _ => unexpected "Expected (" (currentToken s1)
      end
  | RANGE_OPERATOR op =>
      match range_operator_of op with
      | Some o =>
          let? r := parseValue (advance s) in
          let '(v, s1) := r in
          Normal (mkParseResult
                    (RANGE fld o v None (span f (value_pl v))) s1)
      | None => unexpected "Malformed range" t
      end
  | _ =>
      let? r := parseValue s in
      let '(v, s1) := r in
      match type (currentToken s1) with
      | RANGE_OPERATOR OP_DOTS =>
          let? r2 := parseValue (advance s1) in
          let '(v2, s2) := r2 in
          Normal (mkParseResult
                    (RANGE fld BETWEEN v (Some v2) (span f (value_pl v2)))
                    s2)
      | _ => Normal (mkParseResult (FIELD_VALUE fld v (span f (value_pl v)))
                                   s1)
      end
  end.

(** Recursive descent, one function per rule of the grammar of section
    6; OR binds loosest, then AND (written or implied by juxtaposition),
    then NOT. [fuel] bounds the depth of the recursion: when it runs out
    the parser fails like on any other structural error. *)
Fixpoint parseOr (fuel : nat) (s : TokenStream) : Completion ParseResult :=
  match fuel with
  | O => unexpected "Maximum nesting depth exceeded" (currentToken s)
  | S fuel' =>
      let? l := parseAnd fuel' s in
      parseOrRest fuel' (result l) (stream l)
  end
with parseOrRest (fuel : nat) (l : FirstPassExpression) (s : TokenStream)
  : Completion ParseResult :=
  match fuel with
  | O => unexpected "Maximum nesting depth exceeded" (currentToken s)
  | S fuel' =>
      match type (currentToken s) with
      | KEYWORD KW_OR =>
          let? r := parseAnd fuel' (advance s) in
          parseOrRest fuel'
                      (OR l (result r)
                          (span (node_pl l) (node_pl (result r))))
                      (stream r)
      | _ => Normal (mkParseResult l s)
      end
  end
with parseAnd (fuel : nat) (s : TokenStream) : Completion ParseResult :=
  match fuel with
  | O => unexpected "Maximum nesting depth exceeded" (currentToken s)
  | S fuel' =>
      let? l := parseUnary fuel' s in
      parseAndRest fuel' (result l) (stream l)
  end
with parseAndRest (fuel : nat) (l : FirstPassExpression) (s : TokenStream)
  : Completion ParseResult :=
  match fuel with
  | O => unexpected "Maximum nesting depth exceeded" (currentToken s)
  | S fuel' =>
      match type (currentToken s) with
      | KEYWORD KW_OR | RPAREN | EOF => Normal (mkParseResult l s)
      | t =>
          let s' := match t with KEYWORD KW_AND => advance s | _ => s end in
          let? r := parseUnary fuel' s' in
          parseAndRest fuel'
                       (AND l (result r)
                            (span (node_pl l) (node_pl (result r))))
                       (stream r)
      end
  end
with parseUnary (fuel : nat) (s : TokenStream) : Completion ParseResult :=
  match fuel with
  | O => unexpected "Maximum nesting depth exceeded" (currentToken s)
  | S fuel' =>
      let t := currentToken s in
      match type t with
      | KEYWORD KW_NOT =>
          let? r := parseUnary fuel' (advance s) in
          Normal (mkParseResult
                    (NOT (result r) (span t (node_pl (result r))))
                    (stream r))
      | _ => parseAtom fuel' s
      end
  end
with parseAtom (fuel : nat) (s : TokenStream) : Completion ParseResult :=
  match fuel with
  | O => unexpected "Maximum nesting depth exceeded" (currentToken s)
  | S fuel' =>
      let t := currentToken s in
      match type t with
      | LPAREN =>
          let? r := parseOr fuel' (advance s) in
          match type (currentToken (stream r)) with
          | RPAREN => Normal (mkParseResult (result r) (advance (stream r)))
          | _ => unexpected "Expected )" (currentToken (stream r))
          end
      | FIELD_NAME =>
          let s1 := advance s in
          match type (currentToken s1) with
          | COLON => parseFieldRest fuel' t (advance s1)
          | _ => unexpected "Expected :" (currentToken s1)
          end
      | WILDCARD_FRAGMENT =>
          Normal (mkParseResult
                    (WILDCARD (drop_last_char (text t)) false (token_pl t))
                    (advance s))
      | QUOTED_STRING =>
          Normal (mkParseResult
                    (if SpecLexer.ends_with_star (JS.chars (text t))
                     then WILDCARD (drop_last_char (text t)) true
                                   (token_pl t)
                     else TERM (text t) true (token_pl t))
                    (advance s))
      | IDENTIFIER =>
          Normal (mkParseResult (TERM (text t) false (token_pl t))
                                (advance s))
      | UNTERMINATED_STRING => unexpected "Unterminated quoted string" t
      | _ => unexpected "Unexpected token" t
      end
  end.

(** Modelled from the spec: [parseExpression] is defined in
    [first-pass-parser.ts], which is not part of the sources at hand.
    Section 4.2 and the grammar of section 6: a recursive-descent parser
    that never backtracks and fails at once, with one diagnostic at the
    offending token, on the first token that does not fit. The depth
    budget grows with the number of tokens, each call either consuming a
    token or moving one rule down. *)
Definition parseExpression (s : TokenStream) : Completion ParseResult :=
  parseOr (8 * S (List.length (tokens s))) s.

End SpecParser.

(** ** The validators and the transformer of sections 4.3, 4.4 and 4.6 *)

Module SpecValidator.

(** The two checks on the name of a FIELD_VALUE or RANGE node, the same
    as those [validateInExpression] makes for an IN node. *)
Definition validateFieldName (f : Field) (errors : list ValidationError)
  : list ValidationError :=
  let errors :=
    if negb (field_pattern_test (field_value f)) then
      push errors {| message := "Invalid characters in field name";
                     code := Some INVALID_FIELD_CHARS;
                     value := None;
                     error_pl := mkPL (position (field_pl f))
                                      (JS.strlen (field_value f)) |}
    else errors in
  if bool_decide (JS.toUpperCase (field_value f) ∈ reservedWords) then
    push errors {| message := field_value f ++ " is a reserved word";
                   code := Some RESERVED_WORD_AS_FIELD;
                   value := Some (field_value f);
                   error_pl := mkPL (position (field_pl f))
                                    (JS.strlen (field_value f)) |}
  else errors.

Fixpoint walk (e : FirstPass.FirstPassExpression) (errors : list ValidationError)
  : list ValidationError :=
  match e with
  | FirstPass.TERM _ _ _ | FirstPass.WILDCARD _ _ _ => errors
  | FirstPass.FIELD_VALUE f _ _ => validateFieldName f errors
  | FirstPass.RANGE f _ _ _ _ => validateFieldName f errors
  | FirstPass.AND l r _ | FirstPass.OR l r _ => walk r (walk l errors)
  | FirstPass.NOT e' _ => walk e' errors
  | FirstPass.IN expr => validateInExpression expr errors
  end.

(** Modelled from the spec: [validateSearchQuery] is defined in
    [validator.ts], which is not part of the sources at hand. Section
    4.3: it walks every node, accumulates and never throws; FIELD_VALUE,
    RANGE and IN nodes have their field name checked, IN nodes are
    handed to [validateInExpression]. *)
Definition validateSearchQuery (e : FirstPass.FirstPassExpression)
  : list ValidationError :=
  walk e [].

Definition value_fits (t : FieldType) (v : string) : bool :=
  match t with
  | TString => true
  | TNumber => SpecLexer.is_number (JS.chars v)
  | TDate => SpecLexer.is_date (JS.chars v)
  | TBoolean =>
      let l := JS.toLowerCase v in String.eqb l "true" || String.eqb l "false"
  end.

Definition unknown_field (f : string) (p : PositionLength)
  : ValidationError :=
  {| message := "Invalid field: " ++ f; code := Some UNKNOWN_FIELD;
     value := Some f; error_pl := mkPL (position p) (JS.strlen f) |}.

Definition type_mismatch (v : string) (p : PositionLength)
  : ValidationError :=
  {| message := "Invalid value: " ++ v; code := Some TYPE_MISMATCH;
     value := Some v; error_pl := p |}.

Definition check_value (t : FieldType) (v : Value)
           (errors : list ValidationError) : list ValidationError :=
  if value_fits t (value_value v) then errors
  else push errors (type_mismatch (value_value v) (value_pl v)).

Definition supports_range (t : FieldType) : bool :=
  match t with
  | TNumber | TDate => true
  | TString | TBoolean => false
  end.

Section Fields.

Variable columnSet : gset string.
Variable schemaMap : gmap string FieldSchema.

(** A field-bearing node: the field must be known; when it is, [k]
    checks operator and values against its declared type. *)
Definition with_schema (f : string) (p : PositionLength)
           (k : FieldType -> list ValidationError -> list ValidationError)
           (errors : list ValidationError) : list ValidationError :=
  if bool_decide (JS.toLowerCase f ∈ columnSet) then
    match schemaMap !! JS.toLowerCase f with
    | Some schema => k (schema_type schema) errors
    | None => errors
    end
  else push errors (unknown_field f p).

Fixpoint walkFields (e : FirstPass.FirstPassExpression)
         (errors : list ValidationError) : list ValidationError :=
  match e with
  | FirstPass.TERM _ _ _ | FirstPass.WILDCARD _ _ _ => errors
  | FirstPass.FIELD_VALUE f v _ =>
      with_schema (field_value f) (field_pl f)
                  (fun t => check_value t v) errors
  | FirstPass.RANGE f _ v v2 pl =>
      with_schema (field_value f) (field_pl f)
                  (fun t errors =>
                     if supports_range t then
                       let errors := check_value t v errors in
                       match v2 with
                       | Some v2 => check_value t v2 errors
                       | None => errors
                       end
                     else push errors
                               (type_mismatch (value_value v) pl))
                  errors
  | FirstPass.AND l r _ | FirstPass.OR l r _ => walkFields r (walkFields l errors)
  | FirstPass.NOT e' _ => walkFields e' errors
  | FirstPass.IN expr =>
      with_schema (field expr) (in_pl expr)
                  (fun t errors =>
                     fold_left
                       (fun errors v =>
                          if value_fits t v then errors
                          else push errors
                                    (type_mismatch v (in_pl expr)))
                       (values expr) errors)
                  errors
  end.

End Fields.

(** Modelled from the spec: [validateExpressionFields] is defined in
    [validate-expression-fields.ts], which is not part of the sources at
    hand. Section 4.4: every field-bearing node yields an unknown-field
    diagnostic when its field is not in the schema set and otherwise a
    type-mismatch diagnostic when operator or values do not fit the
    declared type. The section gives examples of misfits only; here a
    range needs a number or date field and every literal must read as a
    value of the field's type. *)
Definition validateExpressionFields (e : FirstPass.FirstPassExpression)
           (columnSet : gset string) (errors : list ValidationError)
           (schemaMap : gmap string FieldSchema) : list ValidationError :=
  walkFields columnSet schemaMap e errors.

(** Modelled from the spec: [transformToExpression] is defined in
    [transform-to-expression.ts], which is not part of the sources at
    hand. Section 4.6: a one-to-one mapping from syntax-tree nodes to AST
    nodes. The first-pass IN node keeps no offsets for its entries; the
    resolved values take the span of the node. *)
Fixpoint transformToExpression (e : FirstPass.FirstPassExpression)
         (schemaMap : gmap string FieldSchema) : Expression :=
  match e with
  | FirstPass.TERM v _ pl => SEARCH_TERM v pl
  | FirstPass.WILDCARD p q pl => WILDCARD p q pl
  | FirstPass.FIELD_VALUE f v _ => FIELD_VALUE f v
  | FirstPass.RANGE f o v v2 pl => RANGE f o v v2 pl
  | FirstPass.AND l r pl =>
      AND (transformToExpression l schemaMap)
                    (transformToExpression r schemaMap) pl
  | FirstPass.OR l r pl =>
      OR (transformToExpression l schemaMap)
                   (transformToExpression r schemaMap) pl
  | FirstPass.NOT e' pl => NOT (transformToExpression e' schemaMap) pl
  | FirstPass.IN expr =>
      IN
        (mkField (field expr)
                 (mkPL (position expr) (JS.strlen (field expr))))
        (map (fun v => mkValue v (in_pl expr)) (values expr))
        (in_pl expr)
  end.

End SpecValidator.

(** The pipeline of the specification, as an implementation of the stages
    the driver calls. *)
Definition specStages : Stages :=
  {| tokenize := fun input => Normal (SpecLexer.tokenize input);
     parseExpression := SpecParser.parseExpression;
     validateSearchQuery :=
       fun e => Normal (SpecValidator.validateSearchQuery e);
     validateExpressionFields :=
       fun e columnSet errors schemaMap =>
         Normal (SpecValidator.validateExpressionFields
                   e columnSet errors schemaMap);
     transformToExpression :=
       fun e schemaMap =>
         Normal (SpecValidator.transformToExpression e schemaMap) |}.

(** [parse] of the specification: the driver of [parser.ts] over the
    pipeline above, with the log of calls dropped. *)
Definition parse (input : string) (fieldSchemas : list FieldSchema)
  : Completion QueryResult :=
  fst (run (parseSearchInputQuery specStages input fieldSchemas)).

(** ** Definitions the statements use *)

(** [v] holds the character U+0020. *)
Definition has_space (v : string) : bool :=
  existsb (Ascii.eqb " ") (JS.chars v).

(** [v] holds a whitespace character of any kind. *)
Definition has_whitespace (v : string) : bool :=
  existsb JS.is_whitespace (JS.chars v).

Definition quoted_text (v : string) : string := JS.dquote ++ v ++ JS.dquote.

(** The rendering of a search term as the specification words it: quoted
    exactly when the term contains whitespace. *)
Definition search_term_text_by_whitespace (v : string) : string :=
  if has_whitespace v then quoted_text v else v.

(** The letter a, a TAB, the letter b. *)
Definition tab_term : string :=
  String "a" (String (ascii_of_nat 9) (String "b" EmptyString)).

Definition no_pl : PositionLength := mkPL 0 0.

(** The number of diagnostics of [l] that carry the code [c]. *)
Definition count_code (c : SearchQueryErrorCode) (l : list ValidationError)
  : nat :=
  List.length (List.filter (has_code c) l).

(** The field name, upper-cased, is one of the reserved keywords. *)
Definition is_reserved (f : string) : bool :=
  existsb (String.eqb (JS.toUpperCase f)) ["AND"; "OR"; "NOT"; "IN"].

Definition has_comma (v : string) : bool :=
  existsb (Ascii.eqb ",") (JS.chars v).

(** The entries of an array with their indices, counted from [index]. *)
Fixpoint indexed {A : Type} (index : Z) (arr : list A) : list (Z * A) :=
  match arr with
  | [] => []
  | x :: arr' => (index, x) :: indexed (index + 1) arr'
  end.

Definition span_of (e : ValidationError) : Z * Z := (position e, length e).

(** Where [validateInExpression] places the diagnostic of the entry
    [value] at [index], and the length it gives it. *)
Definition in_value_span (expr : InExpression) (entry : Z * string) : Z * Z :=
  let (index, value) := entry in
  (position expr + JS.strlen (field expr) + 3 + index * (JS.strlen value + 1),
   JS.strlen value).

(** The offset of the entry at [index] within the rendered list
    [values.join(",")]: the lengths of the entries before it and of the
    commas that follow them. *)
Fixpoint literal_offset (values : list string) (index : nat) : Z :=
  match index, values with
  | S i, v :: vs => JS.strlen v + 1 + literal_offset vs i
  | _, _ => 0
  end.

(** The position of a diagnostic as the specification words it: the start
    of the node, the length of the field name, a fixed number [c] of
    characters for the punctuation before the list, and the literal offset
    of the value within the rendered list. *)
Definition in_value_position_by_offset (c : Z) (expr : InExpression)
           (index : nat) : Z :=
  position expr + JS.strlen (field expr) + c
  + literal_offset (values expr) index.

(** An IN node whose two entries both hold a comma. *)
Definition two_comma_entries : InExpression :=
  mkIn "f" ["a,b"; "c,"] (mkPL 0 13).

(** [error] covers the very span of [fe]. *)
Definition same_span (fe error : ValidationError) : bool :=
  (position error =? position fe) && (length error =? length fe).

(** The schema-validator entries that share their span with no
    structural-validator entry. *)
Definition surviving (errors fieldErrors : list ValidationError)
  : list ValidationError :=
  List.filter (fun fe => negb (existsb (same_span fe) errors)) fieldErrors.

Definition at_position (p : Z) (e : ValidationError) : bool :=
  position e =? p.

Definition position_le (a b : ValidationError) : Prop :=
  position a <= position b.

(** The comparator of the merge, [(a, b) => a.position - b.position]. *)
Definition by_position (a b : ValidationError) : Z := position a - position b.

(** *** Outcomes of the driver *)

Definition error_result (errs : list ValidationError) : QueryResult :=
  mkResult SEARCH_QUERY_ERROR None (Some errs).

(** What a call of the driver completes with, and the stages it called. *)
Definition outcome (st : Stages) (input : string)
           (fieldSchemas : list FieldSchema) : Completion QueryResult :=
  fst (run (parseSearchInputQuery st input fieldSchemas)).

Definition stages_called (st : Stages) (input : string)
           (fieldSchemas : list FieldSchema) : list Stage :=
  snd (run (parseSearchInputQuery st input fieldSchemas)).

(** The two shapes of a result: a SEARCH_QUERY has no [errors] property; a
    SEARCH_QUERY_ERROR has a null expression and a list of errors that is
    not empty. *)
Definition is_search_query (r : QueryResult) : Prop :=
  query_type r = SEARCH_QUERY /\ errors r = None.

Definition is_search_query_error (r : QueryResult) : Prop :=
  query_type r = SEARCH_QUERY_ERROR /\ expression r = None
  /\ exists errs, errors r = Some errs /\ errs <> [].

(** The first pass went through on [input]: the text has tokens, the
    parser returned [tree] and left nothing but the end of the input. *)
Inductive Parsed (st : Stages) (input : string)
  : FirstPass.FirstPassExpression -> Prop :=
| Parsed_intro (tokens : list Token) (result : FirstPass.ParseResult) :
    tokenize st input = Normal tokens ->
    is_EOF (type (currentToken (createStream tokens))) = false ->
    parseExpression st (createStream tokens) = Normal result ->
    is_EOF (type (currentToken (FirstPass.stream result))) = true ->
    Parsed st input (FirstPass.result result).

Definition schemaMap_of (fieldSchemas : list FieldSchema)
  : gmap string FieldSchema :=
  Map_of_entries (map (fun s => (JS.toLowerCase (name s), s)) fieldSchemas).

(** The schema validation as the driver runs it: skipped, with no
    diagnostics, when there are no schemas. *)
Definition fieldErrors_of (st : Stages) (tree : FirstPass.FirstPassExpression)
           (fieldSchemas : list FieldSchema)
  : Completion (list ValidationError) :=
  let allowedFields := map (fun s => JS.toLowerCase (name s)) fieldSchemas in
  if (0 <? List.length allowedFields)%nat then
    validateExpressionFields
      st tree (list_to_set (map JS.toLowerCase allowedFields)) []
      (schemaMap_of fieldSchemas)
  else Normal [].

(** The merged list of diagnostics of a call: both validators returned. *)
Inductive Merged (st : Stages) (input : string)
          (fieldSchemas : list FieldSchema) : list ValidationError -> Prop :=
| Merged_intro (tree : FirstPass.FirstPassExpression)
               (errors fieldErrors : list ValidationError) :
    Parsed st input tree ->
    validateSearchQuery st tree = Normal errors ->
    fieldErrors_of st tree fieldSchemas = Normal fieldErrors ->
    Merged st input fieldSchemas (mergeErrors errors fieldErrors).

(** A stage that the call reaches throws [error]. *)
Inductive StageThrows (st : Stages) (input : string)
          (fieldSchemas : list FieldSchema) (error : ValidationError) : Prop :=
| tokenize_throws :
    tokenize st input = Throw error ->
    StageThrows st input fieldSchemas error
| parseExpression_throws (tokens : list Token) :
    tokenize st input = Normal tokens ->
    is_EOF (type (currentToken (createStream tokens))) = false ->
    parseExpression st (createStream tokens) = Throw error ->
    StageThrows st input fieldSchemas error
| validateSearchQuery_throws (tree : FirstPass.FirstPassExpression) :
    Parsed st input tree ->
    validateSearchQuery st tree = Throw error ->
    StageThrows st input fieldSchemas error
| validateExpressionFields_throws (tree : FirstPass.FirstPassExpression)
                                  (errors : list ValidationError) :
    Parsed st input tree ->
    validateSearchQuery st tree = Normal errors ->
    fieldErrors_of st tree fieldSchemas = Throw error ->
    StageThrows st input fieldSchemas error
| transformToExpression_throws (tree : FirstPass.FirstPassExpression) :
    Parsed st input tree ->
    Merged st input fieldSchemas [] ->
    transformToExpression st tree (schemaMap_of fieldSchemas) = Throw error ->
    StageThrows st input fieldSchemas error.

(** *** Sample inputs *)

(** The diagnostic of the parser of section 4.2 on the input [(title:foo],
    at the end of the input. *)
Definition expected_rparen_error : ValidationError :=
  mkError "Expected )" None None (mkPL 10 0).

(** The diagnostic of the structural validator on the input [and:foo]. *)
Definition reserved_and_error : ValidationError :=
  mkError "and is a reserved word" (Some RESERVED_WORD_AS_FIELD) (Some "and")
          (mkPL 0 3).

(** The syntax tree of [and:foo] and the stream the parser leaves. *)
Definition and_foo_result : FirstPass.ParseResult :=
  FirstPass.mkParseResult
    (FirstPass.FIELD_VALUE (mkField "and" (mkPL 0 3))
                           (mkValue "foo" (mkPL 4 3)) (mkPL 0 7))
    (mkStream (SpecLexer.tokenize "and:foo") 3).


(** The input is empty or holds whitespace only. *)
Definition all_whitespace (input : string) : bool :=
  forallb JS.is_whitespace (JS.chars input).

(** The result for an input without tokens: [{type, expression: null}]. *)
Definition empty_result : QueryResult := mkResult SEARCH_QUERY None None.

(** An expression with every position and length set to zero: two
    expressions are structurally equal when they agree after that. *)
Definition erase_field (f : Field) : Field := mkField (field_value f) no_pl.
Definition erase_value (v : Value) : Value := mkValue (value_value v) no_pl.

Fixpoint erase (e : Expression) : Expression :=
  match e with
  | SEARCH_TERM v _ => SEARCH_TERM v no_pl
  | WILDCARD p q _ => WILDCARD p q no_pl
  | FIELD_VALUE f v => FIELD_VALUE (erase_field f) (erase_value v)
  | RANGE f o v v2 _ =>
      RANGE (erase_field f) o (erase_value v) (option_map erase_value v2) no_pl
  | AND l r _ => AND (erase l) (erase r) no_pl
  | OR l r _ => OR (erase l) (erase r) no_pl
  | NOT e' _ => NOT (erase e') no_pl
  | IN f vs _ => IN (erase_field f) (map erase_value vs) no_pl
  end.

(** The input [title:"foo bar"]. *)
Definition quoted_field_value_input : string :=
  "title:" ++ JS.dquote ++ "foo bar" ++ JS.dquote.

(** *** The parser of section 4.2 and the tokens *)

(** The diagnostic [e] carries the position and the length of a token of
    [toks], or of the end of the input after them. *)
Definition at_token (toks : list Token) (e : ValidationError) : Prop :=
  exists n : nat,
    position e = position (currentToken (mkStream toks n))
    /\ length e = length (currentToken (mkStream toks n)).

(** A completion of a parsing function over the tokens [toks]: the stream
    it returns is still over [toks], the diagnostic it throws is at a
    token. *)
Definition keeps_tokens {A : Type} (rest : A -> TokenStream)
           (toks : list Token) (c : Completion A) : Prop :=
  match c with
  | Normal a => tokens (rest a) = toks
  | Throw e => at_token toks e
  end.

Definition keeps (s : TokenStream) (c : Completion FirstPass.ParseResult)
  : Prop :=
  keeps_tokens FirstPass.stream (tokens s) c.


(** *** Definitions for further properties *)

(** The number of times the character [c] stands in [s]. *)
Fixpoint occurrences (c : ascii) (s : string) : nat :=
  match s with
  | EmptyString => 0
  | String x s' => ((if Ascii.eqb c x then 1 else 0) + occurrences c s')%nat
  end.

(** [s] holds no parenthesis. *)
Definition no_parens (s : string) : bool :=
  Nat.eqb (occurrences "(" s) 0 && Nat.eqb (occurrences ")" s) 0.

(** No field name, value or prefix of [e] holds a parenthesis. *)
Fixpoint paren_free (e : Expression) : bool :=
  match e with
  | SEARCH_TERM v _ => no_parens v
  | WILDCARD p _ _ => no_parens p
  | FIELD_VALUE f v => no_parens (field_value f) && no_parens (value_value v)
  | RANGE f _ v v2 _ =>
      no_parens (field_value f) && no_parens (value_value v)
      && no_parens (value2_text v2)
  | AND l r _ | OR l r _ => paren_free l && paren_free r
  | NOT e' _ => paren_free e'
  | IN f vs _ =>
      no_parens (field_value f)
      && forallb (fun v => no_parens (value_value v)) vs
  end.

(** No entry of the list holds a comma. *)
Definition comma_free (values : list string) : bool :=
  forallb (fun v => negb (has_comma v)) values.

(** The order in which the driver reaches the stages. *)
Definition pipeline_order : list Stage :=
  [TOKENIZE; PARSE_EXPRESSION; VALIDATE_SEARCH_QUERY;
   VALIDATE_EXPRESSION_FIELDS; TRANSFORM_TO_EXPRESSION].

(** The stages [st] with another function for [validateExpressionFields]. *)
Definition with_field_validator
           (st : Stages)
           (f : FirstPass.FirstPassExpression -> gset string ->
                list ValidationError -> gmap string FieldSchema ->
                Completion (list ValidationError)) : Stages :=
  mkStages (tokenize st) (parseExpression st) (validateSearchQuery st) f
           (transformToExpression st).

(** The column set the driver builds from the schemas
    ([parser.ts], lines 155-158). *)
Definition columnSet_of (fieldSchemas : list FieldSchema) : gset string :=
  let allowedFields := map (fun s => JS.toLowerCase (name s)) fieldSchemas in
  list_to_set (map JS.toLowerCase allowedFields).

(** Sample values for the statements with a precondition. *)
Definition sample_expression : Expression :=
  AND (FIELD_VALUE (mkField "title" (mkPL 0 5)) (mkValue "foo" (mkPL 6 3)))
      (NOT (IN (mkField "category" (mkPL 14 8))
               [mkValue "a" (mkPL 14 19); mkValue "c d" (mkPL 14 19)]
               (mkPL 14 19))
           (mkPL 10 23))
      (mkPL 0 33).

Definition sample_structural_error : ValidationError :=
  mkError "Invalid characters in field name" (Some INVALID_FIELD_CHARS) None
          (mkPL 0 4).

Definition sample_schema_error : ValidationError :=
  mkError "Invalid field" (Some UNKNOWN_FIELD) (Some "colour") (mkPL 9 6).

(** *** The token at which the parser stops *)








(** An IN node whose two entries hold a comma and are equally long. *)
Definition equal_length_entries : InExpression :=
  mkIn "f" ["c,"; "d,"] (mkPL 0 12).

(** Every character of [s] is an ASCII character. *)
Definition is_ascii_text (s : string) : bool :=
  forallb (fun c => (nat_of_ascii c <? 128)%nat) (JS.chars s).

(** * Properties of [stringify] *)

Lemma append_assoc (a b c : string) : (a ++ b) ++ c = a ++ b ++ c.
Proof.
  induction a as [|x a IH]; [reflexivity|].
  change (String x ((a ++ b) ++ c) = String x (a ++ b ++ c)).
  now rewrite IH.
Qed.

Lemma prefix_empty (v : string) : String.prefix "" v = true.
Proof. destruct v; reflexivity. Qed.

Lemma includes_space (v : string) : JS.includes v " " = has_space v.
Proof.
  unfold has_space, JS.chars.
  induction v as [|c v IH]; [reflexivity|].
  cbn [JS.includes list_ascii_of_string existsb String.prefix].
  rewrite <- IH, prefix_empty.
  destruct (Ascii.eqb_spec " " c) as [<-|Hne].
  - reflexivity.
  - destruct (ascii_dec " " c); [contradiction|reflexivity].
Qed.

Lemma quote_if_space_spec (v : string) :
  quote_if_space v = if has_space v then quoted_text v else v.
Proof. unfold quote_if_space. now rewrite includes_space. Qed.

(** C10. [stringify] prints a FIELD_VALUE as the field, a colon and the
    value, with no quotation marks added even when the value holds a space;
    and a search term or an IN value is quoted exactly when it holds the
    character U+0020, so that a term with a TAB and no space is printed
    bare. *)
Theorem stringify_field_value_bare_and_space_test :
  (forall (f : Field) (v : Value),
      stringify (FIELD_VALUE f v) = field_value f ++ ":" ++ value_value v)
  /\ stringify (FIELD_VALUE (mkField "title" no_pl)
                            (mkValue "foo bar" no_pl)) = "title:foo bar"
  /\ (forall (v : string) (pl : PositionLength),
         stringify (SEARCH_TERM v pl)
         = if has_space v then quoted_text v else v)
  /\ (forall (f : Field) (vs : list Value) (pl : PositionLength),
         stringify (IN f vs pl)
         = field_value f ++ ":IN("
           ++ JS.join ","
                (map (fun v => if has_space (value_value v)
                               then quoted_text (value_value v)
                               else value_value v) vs)
           ++ ")")
  /\ has_whitespace tab_term = true
  /\ stringify (SEARCH_TERM tab_term no_pl) = tab_term
  /\ stringify (IN (mkField "f" no_pl) [mkValue tab_term no_pl] no_pl)
     = "f:IN(" ++ tab_term ++ ")".
Proof.
  repeat split; try reflexivity.
  - intros v pl. apply quote_if_space_spec.
  - intros f vs pl. cbn [stringify]. do 3 f_equal.
    apply (f_equal (JS.join ",")), map_ext.
    intros v. apply quote_if_space_spec.
Qed.

(** C5, for the term "a<TAB>b": the term contains whitespace, so the rule
    as worded asks for quotation marks, and [stringify] prints it bare. *)
Lemma stringify_tab_term_not_quoted :
  stringify (SEARCH_TERM tab_term no_pl)
  <> search_term_text_by_whitespace tab_term.
Proof. discriminate. Qed.

(** C5, amended. [stringify] renders each variant as follows: a search
    term is quoted exactly when it holds the character U+0020; a wildcard
    is its prefix and a star, quoted when the node says so; a field/value
    pair is [field:value]; a range is [field:], the operator and the value
    with nothing between them, a BETWEEN range [field:value..value2]; NOT
    is [NOT (inner)]; AND and OR put both operands in one pair of
    parentheses; IN is [field:IN(v1,v2,...)] with each value quoted under
    the rule of search terms. *)
Theorem stringify_rules :
  (forall v pl,
      stringify (SEARCH_TERM v pl) = if has_space v then quoted_text v else v)
  /\ (forall p pl, stringify (WILDCARD p false pl) = p ++ "*")
  /\ (forall p pl, stringify (WILDCARD p true pl) = quoted_text (p ++ "*"))
  /\ (forall f v,
         stringify (FIELD_VALUE f v) = field_value f ++ ":" ++ value_value v)
  /\ (forall f v v2 pl,
         stringify (RANGE f GE v v2 pl)
         = field_value f ++ ":>=" ++ value_value v
         /\ stringify (RANGE f GT v v2 pl)
            = field_value f ++ ":>" ++ value_value v
         /\ stringify (RANGE f LE v v2 pl)
            = field_value f ++ ":<=" ++ value_value v
         /\ stringify (RANGE f LT v v2 pl)
            = field_value f ++ ":<" ++ value_value v)
  /\ (forall f v v2 pl,
         stringify (RANGE f BETWEEN v (Some v2) pl)
         = field_value f ++ ":" ++ value_value v ++ ".." ++ value_value v2)
  /\ (forall e pl, stringify (NOT e pl) = "NOT (" ++ stringify e ++ ")")
  /\ (forall l r pl,
         stringify (AND l r pl)
         = "(" ++ stringify l ++ " AND " ++ stringify r ++ ")")
  /\ (forall l r pl,
         stringify (OR l r pl)
         = "(" ++ stringify l ++ " OR " ++ stringify r ++ ")")
  /\ (forall f vs pl,
         stringify (IN f vs pl)
         = field_value f ++ ":IN("
           ++ JS.join ","
                (map (fun v => stringify (SEARCH_TERM (value_value v) pl)) vs)
           ++ ")").
Proof.
  repeat split; try reflexivity.
  - intros v pl. apply quote_if_space_spec.
  - intros p pl. cbn [stringify]. unfold quoted_text.
    now rewrite !append_assoc.
Qed.

(** * Properties of [validateInExpression] *)

Lemma includes_char (c : ascii) (v : string) :
  JS.includes v (String c EmptyString) = existsb (Ascii.eqb c) (JS.chars v).
Proof.
  unfold JS.chars.
  induction v as [|x v IH]; [reflexivity|].
  cbn [JS.includes list_ascii_of_string existsb String.prefix].
  rewrite <- IH, prefix_empty.
  destruct (Ascii.eqb_spec c x) as [<-|Hne].
  - destruct (ascii_dec c c); [reflexivity|contradiction].
  - destruct (ascii_dec c x); [contradiction|reflexivity].
Qed.

Lemma reserved_decide (f : string) :
  bool_decide (JS.toUpperCase f ∈ reservedWords) = is_reserved f.
Proof.
  unfold is_reserved, reservedWords. cbn [existsb].
  generalize (JS.toUpperCase f). intros u.
  destruct (bool_decide_reflect
              (u ∈ ({[ "AND"; "OR"; "NOT"; "IN" ]} : gset string)))
    as [Hin|Hout].
  - rewrite !elem_of_union, !elem_of_singleton in Hin.
    symmetry. rewrite !orb_true_iff, !String.eqb_eq. tauto.
  - rewrite !elem_of_union, !elem_of_singleton in Hout.
    symmetry. rewrite orb_false_r, !orb_false_iff, !String.eqb_neq. tauto.
Qed.

(** A loop that pushes [mk v i] for the entries that satisfy [keep], and
    nothing else, appends the diagnostics of those entries in order. *)
Lemma forEach_push {A : Type} (keep : A -> bool) (mk : A -> Z -> ValidationError)
      (arr : list A) :
  forall (index : Z) (errors : list ValidationError),
    forEach (fun errors v i => if keep v then push errors (mk v i) else errors)
            arr index errors
    = (errors
         ++ map (fun '(i, v) => mk v i)
                (List.filter (fun '(_, v) => keep v) (indexed index arr)))%list.
Proof.
  induction arr as [|x arr IH]; intros index errors; cbn [forEach indexed].
  - cbn. now rewrite app_nil_r.
  - rewrite IH. cbn [List.filter]. destruct (keep x).
    + unfold push. cbn [map]. now rewrite <- app_assoc.
    + reflexivity.
Qed.

Lemma filter_code_map {A : Type} (c : SearchQueryErrorCode)
      (g : A -> ValidationError) (b : bool) (l : list A) :
  (forall x, has_code c (g x) = b) ->
  List.filter (has_code c) (map g l) = if b then map g l else [].
Proof.
  intros Hg. induction l as [|x l IH]; cbn [map List.filter].
  - now destruct b.
  - rewrite Hg, IH. now destruct b.
Qed.

(** What [validateInExpression] appends: the diagnostics of the field name
    and then those of the entries. *)
Lemma validateInExpression_appends (expr : InExpression)
      (errors : list ValidationError) :
  exists (names : list ValidationError) (mk : string -> Z -> ValidationError),
    validateInExpression expr errors
    = (errors ++ names
         ++ map (fun '(i, v) => mk v i)
              (List.filter (fun '(_, v) => has_comma v)
                           (indexed 0 (values expr))))%list
    /\ count_code INVALID_FIELD_CHARS names
       = (if field_pattern_test (field expr) then 0 else 1)%nat
    /\ count_code RESERVED_WORD_AS_FIELD names
       = (if is_reserved (field expr) then 1 else 0)%nat
    /\ count_code INVALID_IN_VALUE names = 0%nat
    /\ (forall v i, code (mk v i) = Some INVALID_IN_VALUE)
    /\ (forall v i, span_of (mk v i) = in_value_span expr (i, v)).
Proof.
  unfold validateInExpression.
  rewrite reserved_decide.
  set (e1 := mkError "Invalid characters in field name" _ _ _).
  set (e2 := mkError (field expr ++ " is a reserved word") _ _ _).
  set (mk := fun (value : string) (index : Z) =>
               mkError "Invalid character in IN value" (Some INVALID_IN_VALUE)
                       None
                       (mkPL (position expr + JS.strlen (field expr) + 3
                              + index * (JS.strlen value + 1))
                             (JS.strlen value))).
  exists ((if field_pattern_test (field expr) then [] else [e1])
            ++ (if is_reserved (field expr) then [e2] else []))%list, mk.
  split; [|repeat split].
  - change (fun (errors0 : list ValidationError) (value : string) (index : Z) =>
              if JS.includes value "," then push errors0 (mk value index)
              else errors0)
      with (fun (errors0 : list ValidationError) (value : string) (index : Z) =>
              if (fun v => JS.includes v ",") value
              then push errors0 (mk value index) else errors0).
    rewrite (forEach_push (fun v => JS.includes v ",") mk).
    assert (Hf : List.filter (fun '(_, v) => JS.includes v ",")
                             (indexed 0 (values expr))
                 = List.filter (fun '(_, v) => has_comma v)
                               (indexed 0 (values expr)))
      by (apply filter_ext; intros [i v]; apply includes_char).
    rewrite Hf. unfold push.
    destruct (field_pattern_test (field expr)), (is_reserved (field expr));
      cbn [negb app]; rewrite <- ?app_assoc; reflexivity.
  - now destruct (field_pattern_test (field expr)), (is_reserved (field expr)).
  - now destruct (field_pattern_test (field expr)), (is_reserved (field expr)).
  - now destruct (field_pattern_test (field expr)), (is_reserved (field expr)).
Qed.

Lemma count_code_app (c : SearchQueryErrorCode) (a b : list ValidationError) :
  count_code c (a ++ b) = (count_code c a + count_code c b)%nat.
Proof. unfold count_code. now rewrite List.filter_app, List.length_app. Qed.

Lemma has_code_of_code (c c' : SearchQueryErrorCode) (e : ValidationError) :
  code e = Some c' -> has_code c e = code_eqb c c'.
Proof. unfold has_code. now intros ->. Qed.

(** C8. [validateInExpression] returns (it is a total function: it never
    throws) the diagnostics it was given followed by those it adds; among
    the added ones there is one INVALID_FIELD_CHARS diagnostic when the
    field name fails the pattern of field names and none when it passes,
    and one RESERVED_WORD_AS_FIELD diagnostic when the field name
    upper-cased is AND, OR, NOT or IN and none otherwise, so that the
    reserved words are caught in any case. *)
Theorem validateInExpression_field_name_checks :
  (forall (expr : InExpression) (errors : list ValidationError),
      exists added : list ValidationError,
        validateInExpression expr errors = (errors ++ added)%list
        /\ count_code INVALID_FIELD_CHARS added
           = (if field_pattern_test (field expr) then 0 else 1)%nat
        /\ count_code RESERVED_WORD_AS_FIELD added
           = (if is_reserved (field expr) then 1 else 0)%nat)
  /\ is_reserved "and" = true /\ is_reserved "Or" = true
  /\ is_reserved "nOT" = true /\ is_reserved "in" = true
  /\ is_reserved "india" = false.
Proof.
  split; [|repeat split].
  intros expr errors.
  destruct (validateInExpression_appends expr errors)
    as (names & mk & Heq & Hchars & Hres & _ & Hcode & _).
  eexists. split; [exact Heq|].
  rewrite !count_code_app, Hchars, Hres.
  unfold count_code.
  rewrite !(filter_code_map _ (fun '(i, v) => mk v i) false).
  - cbn. split; lia.
  - intros [i v]. now rewrite (has_code_of_code _ _ _ (Hcode v i)).
  - intros [i v]. now rewrite (has_code_of_code _ _ _ (Hcode v i)).
Qed.

(** C7, on an IN node with the entries "a,b" and "c,": no fixed allowance
    for the punctuation before the list makes both diagnostics sit at the
    start of the node plus the length of the field name plus the literal
    offset of their entries within the rendered list. *)
Lemma in_value_positions_not_literal_offsets :
  ~ exists c : Z,
      map (fun e : ValidationError => position e)
          (validateInExpression two_comma_entries [])
      = map (in_value_position_by_offset c two_comma_entries) [0%nat; 1%nat].
Proof.
  intros [c Hc].
  change (map (fun e : ValidationError => position e)
              (validateInExpression two_comma_entries []))
    with [4; 7] in Hc.
  change (map (in_value_position_by_offset c two_comma_entries)
              [0%nat; 1%nat])
    with [0 + 1 + c + 0; 0 + 1 + c + (3 + 1 + 0)] in Hc.
  injection Hc as H0 H1. lia.
Qed.

(** The position above is the literal offset of the entry when all the
    entries before it are as long as it is. *)
Lemma literal_offset_uniform (values : list string) (width : Z) :
  forall index : nat,
    (index <= List.length values)%nat ->
    Forall (fun v => JS.strlen v = width) (firstn index values) ->
    literal_offset values index = Z.of_nat index * (width + 1).
Proof.
  induction values as [|v values IH]; intros [|index] Hlen Hall;
    cbn [literal_offset]; try reflexivity.
  - cbn in Hlen. lia.
  - cbn [firstn] in Hall. inversion Hall as [|? ? Hv Hrest]; subst.
    rewrite IH; [lia| cbn in Hlen; lia | assumption].
Qed.

(** C7, amended. Among the diagnostics [validateInExpression] adds, those
    with the code INVALID_IN_VALUE are, in order, one for each entry that
    holds a comma and none for any other entry; the diagnostic of the
    entry [value] at [index] has the position
    [expr.position + expr.field.length + 3 + index * (value.length + 1)]
    and the length [value.length]; that position is the start of the
    node plus the length of the field name plus 3 plus the literal offset
    of the entry within the rendered list whenever every entry before it
    is as long as it is. *)
Theorem validateInExpression_in_value_errors :
  forall (expr : InExpression) (errors : list ValidationError),
    exists added : list ValidationError,
      validateInExpression expr errors = (errors ++ added)%list
      /\ map span_of (List.filter (has_code INVALID_IN_VALUE) added)
         = map (in_value_span expr)
               (List.filter (fun '(_, v) => has_comma v)
                            (indexed 0 (values expr)))
      /\ (forall (index : nat) (value : string),
             nth_error (values expr) index = Some value ->
             Forall (fun v => JS.strlen v = JS.strlen value)
                    (firstn index (values expr)) ->
             fst (in_value_span expr (Z.of_nat index, value))
             = in_value_position_by_offset 3 expr index).
Proof.
  intros expr errors.
  destruct (validateInExpression_appends expr errors)
    as (names & mk & Heq & _ & _ & Hnone & Hcode & Hspan).
  eexists. split; [exact Heq|]. split.
  - rewrite List.filter_app.
    assert (Hn : List.filter (has_code INVALID_IN_VALUE) names = []).
    { unfold count_code in Hnone.
      now destruct (List.filter (has_code INVALID_IN_VALUE) names). }
    rewrite Hn, (filter_code_map _ (fun '(i, v) => mk v i) true).
    + cbn [app]. rewrite map_map. apply map_ext. intros [i v]. apply Hspan.
    + intros [i v]. now rewrite (has_code_of_code _ _ _ (Hcode v i)).
  - intros index value Hnth Hall.
    unfold in_value_span, in_value_position_by_offset. cbn [fst].
    rewrite (literal_offset_uniform _ (JS.strlen value) index);
      [reflexivity| |exact Hall].
    apply Nat.lt_le_incl, nth_error_Some. now rewrite Hnth.
Qed.

Lemma validateInExpression_in_value_errors_witness :
  nth_error (values equal_length_entries) 1 = Some "d,"
  /\ fst (in_value_span equal_length_entries (1, "d,"))
     = in_value_position_by_offset 3 equal_length_entries 1.
Proof.
  split; [reflexivity|].
  destruct (validateInExpression_in_value_errors equal_length_entries [])
    as (added & _ & _ & H).
  apply (H 1%nat "d,"); [reflexivity|].
  repeat constructor.
Defined.

(** * Properties of the merge of diagnostics *)

Section Sort.

Context {A : Type} (cmp : A -> A -> Z).

Lemma sort_insert_perm (x : A) (l : list A) :
  Permutation (sort_insert cmp x l) (x :: l).
Proof.
  induction l as [|y l IH]; cbn [sort_insert]; [reflexivity|].
  destruct (cmp x y <=? 0); [reflexivity|].
  rewrite IH. apply perm_swap.
Qed.

Lemma sort_perm (l : list A) : Permutation (sort cmp l) l.
Proof.
  induction l as [|x l IH]; cbn; [reflexivity|].
  fold (sort cmp l). rewrite sort_insert_perm. now constructor.
Qed.

(** Stability: the elements selected by a test that the comparator
    respects keep their order. *)
Lemma sort_insert_stable (sel : A -> bool) (x : A) (l : list A) :
  (forall y, sel x = true -> sel y = true -> (cmp x y <=? 0) = true) ->
  List.filter sel (sort_insert cmp x l) = List.filter sel (x :: l).
Proof.
  intros Hsel. induction l as [|y l IH]; cbn [sort_insert]; [reflexivity|].
  destruct (cmp x y <=? 0) eqn:Hc; [reflexivity|].
  cbn [List.filter] in *. rewrite IH.
  destruct (sel x) eqn:Hx, (sel y) eqn:Hy; try reflexivity.
  rewrite (Hsel y eq_refl Hy) in Hc. discriminate.
Qed.

Lemma sort_stable (sel : A -> bool) (l : list A) :
  (forall x y, sel x = true -> sel y = true -> (cmp x y <=? 0) = true) ->
  List.filter sel (sort cmp l) = List.filter sel l.
Proof.
  intros Hsel. induction l as [|x l IH]; [reflexivity|].
  cbn [sort fold_right]. fold (sort cmp l).
  rewrite sort_insert_stable by (intros y; apply Hsel).
  cbn [List.filter]. now rewrite IH.
Qed.

End Sort.

Lemma sort_insert_sorted (x : ValidationError) (l : list ValidationError) :
  StronglySorted position_le l ->
  StronglySorted position_le (sort_insert by_position x l).
Proof.
  induction 1 as [|y l Hl IH Hy]; cbn [sort_insert].
  - repeat constructor.
  - destruct (by_position x y <=? 0) eqn:Hc.
    + apply Z.leb_le in Hc. unfold by_position in Hc.
      constructor; [now constructor|].
      constructor; [unfold position_le; lia|].
      eapply Forall_impl; [exact Hy|].
      unfold position_le. intros z Hz. lia.
    + apply Z.leb_gt in Hc. unfold by_position in Hc.
      constructor; [exact IH|].
      rewrite (sort_insert_perm by_position x l).
      constructor; [unfold position_le; lia|exact Hy].
Qed.

Lemma sort_sorted (l : list ValidationError) :
  StronglySorted position_le (sort by_position l).
Proof.
  induction l as [|x l IH]; cbn; [constructor|].
  now apply sort_insert_sorted.
Qed.

Lemma existsb_filter {A : Type} (g h : A -> bool) (l : list A) :
  (forall x, In x l -> g x = true -> h x = true) ->
  existsb g (List.filter h l) = existsb g l.
Proof.
  induction l as [|x l IH]; intros Hgh; [reflexivity|].
  cbn [List.filter existsb].
  assert (IH' : existsb g (List.filter h l) = existsb g l)
    by (apply IH; intros y Hy; apply Hgh; now right).
  destruct (h x) eqn:Hh; cbn [existsb]; rewrite IH'; [reflexivity|].
  destruct (g x) eqn:Hg; [|reflexivity].
  rewrite (Hgh x) in Hh; [discriminate|now left|exact Hg].
Qed.

(** The schema-validator entries the merge keeps are those that collide
    with no structural-validator entry: an entry of [errors] on the span
    of [fe] has the key of [fe], hence is one of [errorsToRemove]. *)
Lemma fieldErrorsFiltered_surviving (errors fieldErrors : list ValidationError) :
  List.filter
    (fun fe : ValidationError =>
       negb (existsb (fun error : ValidationError =>
                        (position error =? position fe)
                        && (length error =? length fe))
                     (List.filter
                        (fun e : ValidationError =>
                           array_includes (map errorKey fieldErrors)
                                          (errorKey e))
                        errors)))
    fieldErrors
  = surviving errors fieldErrors.
Proof.
  unfold surviving. apply filter_ext_in. intros fe Hfe. f_equal.
  apply existsb_filter. intros e _ Hsame.
  apply andb_true_iff in Hsame as [Hp Hl].
  apply Z.eqb_eq in Hp, Hl.
  unfold array_includes. apply existsb_exists.
  exists (errorKey fe). split; [now apply in_map|].
  apply String.eqb_eq. unfold errorKey. now rewrite Hp, Hl.
Qed.

(** C3. The merged list is an arrangement of all the structural-validator
    entries and of the schema-validator entries that share their span
    (position and length) with no structural-validator entry, a
    schema-validator entry on the span of a structural one being dropped;
    it ascends by position; and the entries at one position stand in the
    order in which they were found, the structural ones first. *)
Theorem mergeErrors_precedence_and_order :
  forall errors fieldErrors : list ValidationError,
    Permutation (mergeErrors errors fieldErrors)
                (errors ++ surviving errors fieldErrors)
    /\ StronglySorted position_le (mergeErrors errors fieldErrors)
    /\ (forall p : Z,
           List.filter (at_position p) (mergeErrors errors fieldErrors)
           = List.filter (at_position p)
                         (errors ++ surviving errors fieldErrors)).
Proof.
  intros errors fieldErrors. unfold mergeErrors.
  rewrite fieldErrorsFiltered_surviving.
  change (fun a b : ValidationError => position a - position b)
    with by_position.
  split; [apply sort_perm|]. split; [apply sort_sorted|].
  intros p. apply sort_stable.
  unfold at_position, by_position. intros x y Hx Hy.
  apply Z.eqb_eq in Hx, Hy. apply Z.leb_le. lia.
Qed.

(** * Properties of [parseSearchInputQuery] *)

(** The paths through the [try] block, with the stages each one calls. *)
Lemma try_block_cases (st : Stages) (input : string)
      (fieldSchemas : list FieldSchema) :
  run (try_block st input fieldSchemas)
  = match tokenize st input with
    | Throw e => (Throw e, [TOKENIZE])
    | Normal tokens =>
        if is_EOF (type (currentToken (createStream tokens))) then
          (Normal (mkResult SEARCH_QUERY None None), [TOKENIZE])
        else
          match parseExpression st (createStream tokens) with
          | Throw e => (Throw e, [TOKENIZE; PARSE_EXPRESSION])
          | Normal result =>
              if is_EOF (type (currentToken (FirstPass.stream result))) then
                match validateSearchQuery st (FirstPass.result result) with
                | Throw e =>
                    (Throw e,
                     [TOKENIZE; PARSE_EXPRESSION; VALIDATE_SEARCH_QUERY])
                | Normal errors =>
                    let log :=
                      [TOKENIZE; PARSE_EXPRESSION; VALIDATE_SEARCH_QUERY]
                        ++ (if (0 <? List.length fieldSchemas)%nat
                            then [VALIDATE_EXPRESSION_FIELDS] else []) in
                    match fieldErrors_of st (FirstPass.result result)
                                         fieldSchemas with
                    | Throw e => (Throw e, log)
                    | Normal fieldErrors =>
                        match mergeErrors errors fieldErrors with
                        | [] =>
                            match transformToExpression
                                    st (FirstPass.result result)
                                    (schemaMap_of fieldSchemas) with
                            | Throw e =>
                                (Throw e, log ++ [TRANSFORM_TO_EXPRESSION])
                            | Normal expression =>
                                (Normal (mkResult SEARCH_QUERY
                                                  (Some expression) None),
                                 log ++ [TRANSFORM_TO_EXPRESSION])
                            end
                        | allErrors => (Normal (error_result allErrors), log)
                        end
                    end
                end
              else
                (Throw (unexpected_rparen
                          (currentToken (FirstPass.stream result))),
                 [TOKENIZE; PARSE_EXPRESSION])
          end
    end%list.
Proof.
  unfold run, try_block, fieldErrors_of, schemaMap_of, bind, call, ret, throw.
  rewrite List.length_map.
  destruct (tokenize st input) as [tokens|e]; [|reflexivity].
  destruct (is_EOF (type (currentToken (createStream tokens)))); [reflexivity|].
  cbn [app].
  destruct (parseExpression st (createStream tokens)) as [result|e];
    [|reflexivity].
  destruct (is_EOF (type (currentToken (FirstPass.stream result))));
    [|reflexivity].
  cbn [negb app].
  destruct (validateSearchQuery st (FirstPass.result result)) as [errors|e];
    [|reflexivity].
  cbn [app].
  destruct (0 <? List.length fieldSchemas)%nat.
  - destruct (validateExpressionFields _ _ _ _ _) as [fieldErrors|e];
      [|reflexivity].
    destruct (mergeErrors errors fieldErrors) as [|x l]; cbn; [|reflexivity].
    now destruct (transformToExpression _ _ _).
  - destruct (mergeErrors errors []) as [|x l]; cbn; [|reflexivity].
    now destruct (transformToExpression _ _ _).
Qed.

Lemma parseSearchInputQuery_run (st : Stages) (input : string)
      (fieldSchemas : list FieldSchema) :
  run (parseSearchInputQuery st input fieldSchemas)
  = match run (try_block st input fieldSchemas) with
    | (Normal r, log) => (Normal r, log)
    | (Throw error, log) => (Normal (error_result [error]), log)
    end.
Proof. reflexivity. Qed.

Lemma Parsed_inv (st : Stages) (input : string)
      (tree : FirstPass.FirstPassExpression) :
  Parsed st input tree ->
  exists tokens result,
    tokenize st input = Normal tokens
    /\ is_EOF (type (currentToken (createStream tokens))) = false
    /\ parseExpression st (createStream tokens) = Normal result
    /\ is_EOF (type (currentToken (FirstPass.stream result))) = true
    /\ tree = FirstPass.result result.
Proof. intros [tokens result H1 H2 H3 H4]. now exists tokens, result. Qed.

Lemma Parsed_unique (st : Stages) (input : string)
      (t1 t2 : FirstPass.FirstPassExpression) :
  Parsed st input t1 -> Parsed st input t2 -> t1 = t2.
Proof.
  intros (k1 & r1 & Hk1 & _ & Hr1 & _ & ->)%Parsed_inv
         (k2 & r2 & Hk2 & _ & Hr2 & _ & ->)%Parsed_inv.
  rewrite Hk1 in Hk2. injection Hk2 as <-.
  rewrite Hr1 in Hr2. now injection Hr2 as <-.
Qed.

Lemma Merged_inv (st : Stages) (input : string)
      (fieldSchemas : list FieldSchema) (allErrors : list ValidationError) :
  Merged st input fieldSchemas allErrors ->
  exists tree errors fieldErrors,
    Parsed st input tree
    /\ validateSearchQuery st tree = Normal errors
    /\ fieldErrors_of st tree fieldSchemas = Normal fieldErrors
    /\ allErrors = mergeErrors errors fieldErrors.
Proof.
  intros [tree errors fieldErrors H1 H2 H3].
  now exists tree, errors, fieldErrors.
Qed.

(** Rewrites the paths of the [try] block with what is known of the
    stages. *)
Ltac along_path :=
  unfold outcome, stages_called;
  rewrite parseSearchInputQuery_run, try_block_cases;
  repeat match goal with
         | H : tokenize _ _ = _ |- _ => rewrite H; clear H
         | H : parseExpression _ _ = _ |- _ => rewrite H; clear H
         | H : is_EOF _ = _ |- _ => rewrite H; clear H
         | H : validateSearchQuery _ _ = _ |- _ => rewrite H; clear H
         | H : fieldErrors_of _ _ _ = _ |- _ => rewrite H; clear H
         | H : transformToExpression _ _ _ = _ |- _ => rewrite H; clear H
         end;
  cbn beta iota zeta.

Lemma stage_throw_caught (st : Stages) (input : string)
      (fieldSchemas : list FieldSchema) (error : ValidationError) :
  StageThrows st input fieldSchemas error ->
  outcome st input fieldSchemas = Normal (error_result [error]).
Proof.
  intros [H | tokens H1 H2 H3 | tree Hp H | tree errors Hp H1 H2
          | tree Hp Hm H].
  - now along_path.
  - now along_path.
  - apply Parsed_inv in Hp as (k & r & Hk & Hne & Hr & He & ->).
    now along_path.
  - apply Parsed_inv in Hp as (k & r & Hk & Hne & Hr & He & ->).
    now along_path.
  - apply Merged_inv in Hm as (tree' & errors & fieldErrors & Hp' & Hv & Hf
                               & Hnil).
    rewrite <- (Parsed_unique _ _ _ _ Hp Hp') in Hv, Hf. clear Hp'.
    apply Parsed_inv in Hp as (k & r & Hk & Hne & Hr & He & ->).
    along_path. now rewrite <- Hnil.
Qed.

(** C9. For every input and list of schemas, and whatever the stages do,
    [parseSearchInputQuery] returns a value and does not throw; and when a
    stage it reaches throws, the value is a SEARCH_QUERY_ERROR whose list
    of errors is the thrown value alone. *)
Theorem parseSearchInputQuery_total :
  forall (st : Stages) (input : string) (fieldSchemas : list FieldSchema),
    (exists r : QueryResult, outcome st input fieldSchemas = Normal r)
    /\ (forall error : ValidationError,
           StageThrows st input fieldSchemas error ->
           outcome st input fieldSchemas = Normal (error_result [error])).
Proof.
  intros st input fieldSchemas. split; [|apply stage_throw_caught].
  unfold outcome. rewrite parseSearchInputQuery_run.
  destruct (run (try_block st input fieldSchemas)) as [[r|e] log];
    eexists; reflexivity.
Qed.

Lemma shapes_exclusive (r : QueryResult) :
  ~ (is_search_query r /\ is_search_query_error r).
Proof. intros [[H1 _] [H2 _]]. congruence. Qed.

Lemma outcome_shape (st : Stages) (input : string)
      (fieldSchemas : list FieldSchema) (r : QueryResult) :
  outcome st input fieldSchemas = Normal r ->
  is_search_query r \/ is_search_query_error r.
Proof.
  unfold outcome. rewrite parseSearchInputQuery_run, try_block_cases.
  assert (Herr : forall errs, errs <> [] ->
                              is_search_query_error (error_result errs)).
  { intros errs Hne. repeat split. now exists errs. }
  assert (Hok : forall e, is_search_query (mkResult SEARCH_QUERY e None))
    by (intros e; now split).
  assert (Hone : forall e : ValidationError, [e] <> []) by discriminate.
  destruct (tokenize st input) as [tokens|e];
    [|intros [= <-]; right; now apply Herr].
  destruct (is_EOF (type (currentToken (createStream tokens))));
    [intros [= <-]; left; apply Hok|].
  destruct (parseExpression st (createStream tokens)) as [result|e];
    [|intros [= <-]; right; now apply Herr].
  destruct (is_EOF (type (currentToken (FirstPass.stream result))));
    [|intros [= <-]; right; now apply Herr].
  destruct (validateSearchQuery st (FirstPass.result result)) as [errors|e];
    [|intros [= <-]; right; now apply Herr].
  cbn zeta.
  destruct (fieldErrors_of st (FirstPass.result result) fieldSchemas)
    as [fieldErrors|e]; [|intros [= <-]; right; now apply Herr].
  destruct (mergeErrors errors fieldErrors) as [|x l];
    [|intros [= <-]; right; now apply Herr].
  destruct (transformToExpression _ _ _) as [expression|e];
    intros [= <-]; [left; apply Hok|right; now apply Herr].
Qed.

Lemma merged_blocks_transform (st : Stages) (input : string)
      (fieldSchemas : list FieldSchema) (allErrors : list ValidationError) :
  Merged st input fieldSchemas allErrors ->
  allErrors <> [] ->
  outcome st input fieldSchemas = Normal (error_result allErrors)
  /\ ~ In TRANSFORM_TO_EXPRESSION (stages_called st input fieldSchemas).
Proof.
  intros (tree & errors & fieldErrors & Hp & Hv & Hf & ->)%Merged_inv Hne.
  apply Parsed_inv in Hp as (k & r & Hk & Hne0 & Hr & He & ->).
  along_path.
  destruct (mergeErrors errors fieldErrors) as [|x l]; [contradiction|].
  split; [reflexivity|].
  destruct (0 <? List.length fieldSchemas)%nat; cbn; intuition discriminate.
Qed.

Lemma transform_needs_no_errors (st : Stages) (input : string)
      (fieldSchemas : list FieldSchema) :
  In TRANSFORM_TO_EXPRESSION (stages_called st input fieldSchemas) ->
  Merged st input fieldSchemas [].
Proof.
  unfold stages_called. rewrite parseSearchInputQuery_run, try_block_cases.
  destruct (tokenize st input) as [tokens|e] eqn:Hk;
    [|cbn; intuition discriminate].
  destruct (is_EOF (type (currentToken (createStream tokens)))) eqn:Hne;
    [cbn; intuition discriminate|].
  destruct (parseExpression st (createStream tokens)) as [result|e] eqn:Hr;
    [|cbn; intuition discriminate].
  destruct (is_EOF (type (currentToken (FirstPass.stream result)))) eqn:He;
    [|cbn; intuition discriminate].
  assert (Hp : Parsed st input (FirstPass.result result))
    by (econstructor; eassumption).
  destruct (validateSearchQuery st (FirstPass.result result))
    as [errors|e] eqn:Hv; [|cbn; intuition discriminate].
  cbn zeta.
  destruct (fieldErrors_of st (FirstPass.result result) fieldSchemas)
    as [fieldErrors|e] eqn:Hf.
  - destruct (mergeErrors errors fieldErrors) as [|x l] eqn:Hm.
    + intros _. rewrite <- Hm. econstructor; eassumption.
    + destruct (0 <? List.length fieldSchemas)%nat; cbn; intuition discriminate.
  - destruct (0 <? List.length fieldSchemas)%nat; cbn; intuition discriminate.
Qed.

(** C1. Whatever the stages do, [parseSearchInputQuery] returns a result
    of exactly one of two shapes: a SEARCH_QUERY, which has no [errors]
    property, or a SEARCH_QUERY_ERROR, whose expression is null and whose
    list of errors is not empty; so an expression never comes with errors.
    When the merged list of diagnostics is not empty the result is the
    SEARCH_QUERY_ERROR with that list and [transformToExpression] is not
    called; it is called only when the merged list is empty. *)
Theorem parseSearchInputQuery_outcomes :
  forall (st : Stages) (input : string) (fieldSchemas : list FieldSchema),
    (exists r : QueryResult,
        outcome st input fieldSchemas = Normal r
        /\ (is_search_query r \/ is_search_query_error r)
        /\ ~ (is_search_query r /\ is_search_query_error r)
        /\ (expression r <> None -> errors r = None))
    /\ (forall allErrors : list ValidationError,
           Merged st input fieldSchemas allErrors ->
           allErrors <> [] ->
           outcome st input fieldSchemas = Normal (error_result allErrors)
           /\ ~ In TRANSFORM_TO_EXPRESSION
                   (stages_called st input fieldSchemas))
    /\ (In TRANSFORM_TO_EXPRESSION (stages_called st input fieldSchemas) ->
        Merged st input fieldSchemas []).
Proof.
  intros st input fieldSchemas.
  split; [|split;
           [apply merged_blocks_transform|apply transform_needs_no_errors]].
  assert (Hr : exists r, outcome st input fieldSchemas = Normal r).
  { unfold outcome. rewrite parseSearchInputQuery_run.
    destruct (run (try_block st input fieldSchemas)) as [[r|e] log];
      eexists; reflexivity. }
  destruct Hr as [r Hr]. exists r.
  pose proof (outcome_shape _ _ _ _ Hr) as Hshape.
  split; [exact Hr|]. split; [exact Hshape|].
  split; [apply shapes_exclusive|].
  destruct Hshape as [[_ Hnone]|(_ & Hnull & _)]; [easy|].
  intros Hsome. contradiction.
Qed.

(** The theorems above at sample inputs, through the pipeline of the
    specification. *)

Lemma parseSearchInputQuery_total_witness :
  StageThrows specStages "(title:foo" [] expected_rparen_error
  /\ outcome specStages "(title:foo" []
     = Normal (error_result [expected_rparen_error]).
Proof.
  assert (H : StageThrows specStages "(title:foo" [] expected_rparen_error).
  { refine (parseExpression_throws _ _ _ _ (SpecLexer.tokenize "(title:foo")
                                   _ _ _);
      vm_compute; reflexivity. }
  split; [exact H|].
  exact (proj2 (parseSearchInputQuery_total specStages "(title:foo" []) _ H).
Defined.

Lemma parseSearchInputQuery_outcomes_witness :
  Merged specStages "and:foo" [] [reserved_and_error]
  /\ outcome specStages "and:foo" []
     = Normal (error_result [reserved_and_error])
  /\ ~ In TRANSFORM_TO_EXPRESSION (stages_called specStages "and:foo" []).
Proof.
  assert (Hp : Parsed specStages "and:foo" (FirstPass.result and_foo_result)).
  { refine (Parsed_intro _ _ (SpecLexer.tokenize "and:foo") and_foo_result
                         _ _ _ _);
      vm_compute; reflexivity. }
  assert (Hm : Merged specStages "and:foo" [] [reserved_and_error]).
  { change [reserved_and_error] with (mergeErrors [reserved_and_error] []).
    refine (Merged_intro _ _ _ _ _ _ Hp _ _); vm_compute; reflexivity. }
  split; [exact Hm|].
  apply (proj1 (proj2 (parseSearchInputQuery_outcomes specStages "and:foo" []))
               _ Hm).
  discriminate.
Defined.

(** * Empty inputs *)

Lemma classify_word_not_EOF (vp : bool) (w rest : list ascii) :
  is_EOF (SpecLexer.classify_word vp w rest) = false.
Proof.
  unfold SpecLexer.classify_word.
  repeat match goal with
         | |- context [if ?b then _ else _] => destruct b
         | |- context [match ?o with Some _ => _ | None => _ end] => destruct o
         end; reflexivity.
Qed.

Lemma scan_first_token (cs : list ascii) :
  forall (fuel : nat) (pos : Z) (vp : bool),
    (List.length cs < fuel)%nat ->
    exists t rest,
      SpecLexer.scan fuel pos vp cs = t :: rest
      /\ is_EOF (type t) = forallb JS.is_whitespace cs.
Proof.
  induction cs as [|c cs IH]; intros [|fuel] pos vp Hfuel;
    try (cbn in Hfuel; lia).
  - now exists (SpecLexer.eof pos), [].
  - cbn [SpecLexer.scan forallb].
    destruct (JS.is_whitespace c).
    + apply IH. cbn in Hfuel. lia.
    + cbn [andb].
      repeat match goal with
             | |- context [if ?b then _ else _] => destruct b
             end;
        try (eexists _, _; split; reflexivity).
      * destruct (SpecLexer.take_quoted cs) as [[content rest']|];
          eexists _, _; split; reflexivity.
      * destruct (SpecLexer.range_operator (c :: cs)) as [[[op txt] rest']|].
        -- eexists _, _; split; reflexivity.
        -- destruct (SpecLexer.take_word (c :: cs)) as [w rest'].
           eexists _, _; split; [reflexivity|].
           apply classify_word_not_EOF.
Qed.

Lemma tokenize_first_token (input : string) :
  is_EOF (type (currentToken (createStream (SpecLexer.tokenize input))))
  = all_whitespace input.
Proof.
  unfold SpecLexer.tokenize, all_whitespace.
  destruct (scan_first_token (JS.chars input)
                             (S (List.length (JS.chars input))) 0 false)
    as (t & rest & -> & <-); [lia|reflexivity].
Qed.

Lemma null_expression_no_tokens (st : Stages) (input : string)
      (fieldSchemas : list FieldSchema) (tokens : list Token)
      (r : QueryResult) :
  tokenize st input = Normal tokens ->
  outcome st input fieldSchemas = Normal r ->
  query_type r = SEARCH_QUERY ->
  expression r = None ->
  is_EOF (type (currentToken (createStream tokens))) = true.
Proof.
  intros Hk. unfold outcome.
  rewrite parseSearchInputQuery_run, try_block_cases, Hk.
  destruct (is_EOF (type (currentToken (createStream tokens))));
    [reflexivity|].
  destruct (parseExpression st (createStream tokens)) as [result|e];
    [|now intros [= <-]].
  destruct (is_EOF (type (currentToken (FirstPass.stream result))));
    [|now intros [= <-]].
  destruct (validateSearchQuery st (FirstPass.result result)) as [errors|e];
    [|now intros [= <-]].
  cbn zeta.
  destruct (fieldErrors_of st (FirstPass.result result) fieldSchemas)
    as [fieldErrors|e]; [|now intros [= <-]].
  destruct (mergeErrors errors fieldErrors) as [|x l]; [|now intros [= <-]].
  destruct (transformToExpression _ _ _) as [expression|e];
    now intros [= <-].
Qed.

(** C6. With the tokenizer of section 4.1, whatever the other stages do
    and for any list of schemas: an input that is empty or holds
    whitespace only yields the SEARCH_QUERY with a null expression and no
    errors; and a SEARCH_QUERY with a null expression is returned for such
    inputs only. *)
Theorem empty_input_null_expression :
  forall (st : Stages),
    (forall input, tokenize st input = Normal (SpecLexer.tokenize input)) ->
    forall (input : string) (fieldSchemas : list FieldSchema),
      (all_whitespace input = true ->
       outcome st input fieldSchemas = Normal empty_result)
      /\ (forall r : QueryResult,
             outcome st input fieldSchemas = Normal r ->
             query_type r = SEARCH_QUERY ->
             expression r = None ->
             all_whitespace input = true).
Proof.
  intros st Hst input fieldSchemas. split.
  - intros Hws. unfold outcome.
    rewrite parseSearchInputQuery_run, try_block_cases, Hst.
    now rewrite tokenize_first_token, Hws.
  - intros r Hr Hq He. rewrite <- tokenize_first_token.
    exact (null_expression_no_tokens _ _ _ _ _ (Hst input) Hr Hq He).
Qed.

Lemma empty_input_null_expression_witness :
  all_whitespace "   " = true
  /\ outcome specStages "   " [mkSchema "title" TString] = Normal empty_result.
Proof.
  split; [reflexivity|].
  apply (empty_input_null_expression specStages (fun input => eq_refl)).
  reflexivity.
Defined.

(** * Serializing and parsing again *)

(** C2, on the input [title:"foo bar"]: it parses with no diagnostics to a
    FIELD_VALUE whose value holds a space; [stringify] prints the value
    bare, as [title:foo bar]; and that text parses, with no diagnostics, to
    the AND of a FIELD_VALUE and a search term, which is not the expression
    that was serialized. *)
Theorem roundtrip_breaks_on_field_value_with_space :
  exists e e' : Expression,
    parse quoted_field_value_input []
    = Normal (mkResult SEARCH_QUERY (Some e) None)
    /\ erase e = FIELD_VALUE (mkField "title" no_pl)
                              (mkValue "foo bar" no_pl)
    /\ stringify e = "title:foo bar"
    /\ parse (stringify e) [] = Normal (mkResult SEARCH_QUERY (Some e') None)
    /\ erase e' = AND (FIELD_VALUE (mkField "title" no_pl)
                                    (mkValue "foo" no_pl))
                       (SEARCH_TERM "bar" no_pl) no_pl
    /\ erase e' <> erase e.
Proof.
  eexists _, _.
  split; [vm_compute; reflexivity|].
  split; [reflexivity|].
  split; [reflexivity|].
  split; [vm_compute; reflexivity|].
  split; [reflexivity|discriminate].
Qed.

(** * Structural errors of the parser of section 4.2 *)

Lemma unexpected_keeps {A : Type} (rest : A -> TokenStream) (what : string)
      (s : TokenStream) :
  keeps_tokens rest (tokens s) (SpecParser.unexpected what (currentToken s)).
Proof. exists (cursor s). now destruct s. Qed.

Lemma cbind_keeps {A B : Type} (ra : A -> TokenStream) (rb : B -> TokenStream)
      (toks : list Token) (c : Completion A) (k : A -> Completion B) :
  keeps_tokens ra toks c ->
  (forall a, tokens (ra a) = toks -> keeps_tokens rb toks (k a)) ->
  keeps_tokens rb toks (cbind c k).
Proof. destruct c as [a|e]; cbn; auto. Qed.

Lemma parseValue_keeps (s : TokenStream) :
  keeps_tokens snd (tokens s) (SpecParser.parseValue s).
Proof.
  unfold SpecParser.parseValue.
  destruct (SpecParser.is_value_token _); [cbn; reflexivity|apply unexpected_keeps].
Qed.

Lemma parseInValues_keeps (fuel : nat) :
  forall s : TokenStream,
    keeps_tokens snd (tokens s) (SpecParser.parseInValues fuel s).
Proof.
  induction fuel as [|fuel IH]; intros s; cbn [SpecParser.parseInValues].
  - apply unexpected_keeps.
  - destruct (SpecParser.is_list_entry _); [|apply unexpected_keeps].
    destruct (type (currentToken (advance s))) eqn:Ht;
      try apply (unexpected_keeps snd _ (advance s)); [cbn; reflexivity|].
    apply (cbind_keeps snd snd); [apply (IH (advance (advance s)))|].
    now intros [[vs close] s2].
Qed.

Lemma parseFieldRest_keeps (fuel : nat) (f : Token) (s : TokenStream) :
  keeps_tokens FirstPass.stream (tokens s)
               (SpecParser.parseFieldRest fuel f s).
Proof.
  unfold SpecParser.parseFieldRest.
  assert (Hplain :
            keeps_tokens FirstPass.stream (tokens s)
              (cbind (SpecParser.parseValue s)
                 (fun r =>
                    let '(v, s1) := r in
                    match type (currentToken s1) with
                    | RANGE_OPERATOR OP_DOTS =>
                        cbind (SpecParser.parseValue (advance s1))
                          (fun r2 =>
                             let '(v2, s2) := r2 in
                             Normal (FirstPass.mkParseResult
                                       (FirstPass.RANGE
                                          (mkField (text f) (token_pl f))
                                          BETWEEN v (Some v2)
                                          (SpecParser.span f (value_pl v2)))
                                       s2))
                    | _ => Normal (FirstPass.mkParseResult
                                     (FirstPass.FIELD_VALUE
                                        (mkField (text f) (token_pl f)) v
                                        (SpecParser.span f (value_pl v)))
                                     s1)
                    end))).
  { apply (cbind_keeps snd FirstPass.stream); [apply parseValue_keeps|].
    intros [v s1] Hs1. cbn [snd] in Hs1.
    destruct (type (currentToken s1)) as [| | | | | | | |[]| | | | | |];
      try (cbn; exact Hs1).
    apply (cbind_keeps snd FirstPass.stream).
    - rewrite <- Hs1. apply (parseValue_keeps (advance s1)).
    - now intros [v2 s2]. }
  destruct (type (currentToken s)) as [[]| | | | | | | |op| | | | | |];
    try exact Hplain.
  - destruct (type (currentToken (advance s)));
      try apply (unexpected_keeps FirstPass.stream _ (advance s)).
    apply (cbind_keeps snd FirstPass.stream);
      [apply (parseInValues_keeps fuel (advance (advance s)))|].
    now intros [[vs close] s2].
  - destruct (SpecParser.range_operator_of op);
      [|apply unexpected_keeps].
    apply (cbind_keeps snd FirstPass.stream);
      [apply (parseValue_keeps (advance s))|].
    now intros [v s1].
Qed.

Lemma parse_keeps (fuel : nat) :
  (forall s, keeps s (SpecParser.parseOr fuel s))
  /\ (forall l s, keeps s (SpecParser.parseOrRest fuel l s))
  /\ (forall s, keeps s (SpecParser.parseAnd fuel s))
  /\ (forall l s, keeps s (SpecParser.parseAndRest fuel l s))
  /\ (forall s, keeps s (SpecParser.parseUnary fuel s))
  /\ (forall s, keeps s (SpecParser.parseAtom fuel s)).
Proof.
  unfold keeps.
  induction fuel as [|fuel (IHor & IHorR & IHand & IHandR & IHun & IHat)].
  - repeat split; intros; apply unexpected_keeps.
  - repeat split.
    + intros s. cbn [SpecParser.parseOr].
      apply (cbind_keeps FirstPass.stream FirstPass.stream); [apply IHand|].
      intros r <-. apply IHorR.
    + intros l s. cbn [SpecParser.parseOrRest].
      destruct (type (currentToken s)) as [[]| | | | | | | | | | | | | |];
        try (cbn; reflexivity).
      apply (cbind_keeps FirstPass.stream FirstPass.stream);
        [apply (IHand (advance s))|].
      intros r Hr. cbn [tokens advance] in Hr. rewrite <- Hr. apply IHorR.
    + intros s. cbn [SpecParser.parseAnd].
      apply (cbind_keeps FirstPass.stream FirstPass.stream); [apply IHun|].
      intros r <-. apply IHandR.
    + intros l s. cbn [SpecParser.parseAndRest].
      destruct (type (currentToken s)) as [[]| | | | | | | | | | | | | |];
        try (cbn; reflexivity);
        (apply (cbind_keeps FirstPass.stream FirstPass.stream);
         [first [apply (IHun (advance s)) | apply IHun]
         |intros r Hr; cbn [tokens advance] in Hr; rewrite <- Hr;
          apply IHandR]).
    + intros s. cbn [SpecParser.parseUnary].
      destruct (type (currentToken s)) as [[]| | | | | | | | | | | | | |];
        try apply IHat.
      apply (cbind_keeps FirstPass.stream FirstPass.stream);
        [apply (IHun (advance s))|].
      intros r Hr. cbn. exact Hr.
    + intros s. cbn [SpecParser.parseAtom].
      destruct (type (currentToken s)) as [k| | | | | | | |op| | | | | |].
      1,3,5-7,9,11-12,14-15: apply unexpected_keeps.
      * destruct (type (currentToken (advance s)));
          try apply (unexpected_keeps FirstPass.stream _ (advance s)).
        apply (parseFieldRest_keeps fuel _ (advance (advance s))).
      * destruct (SpecLexer.ends_with_star _); cbn; reflexivity.
      * cbn; reflexivity.
      * apply (cbind_keeps FirstPass.stream FirstPass.stream);
          [apply (IHor (advance s))|].
        intros r Hr. cbn [tokens advance] in Hr.
        destruct (type (currentToken (FirstPass.stream r)));
          try (rewrite <- Hr; apply unexpected_keeps).
        cbn. exact Hr.
      * cbn; reflexivity.
Qed.

Lemma spec_parser_throws_at_token (s : TokenStream) (error : ValidationError) :
  SpecParser.parseExpression s = Throw error ->
  at_token (tokens s) error.
Proof.
  intros H. unfold SpecParser.parseExpression in H.
  pose proof (proj1 (parse_keeps (8 * S (List.length (tokens s)))) s) as Hk.
  unfold keeps in Hk. now rewrite H in Hk.
Qed.

(** Through the pipeline of the specification a failure of the parser is
    returned as the one error of the result, and it carries the position
    and the length of a token of the input. *)
Lemma spec_structural_error_at_token (input : string)
      (fieldSchemas : list FieldSchema) (error : ValidationError) :
  is_EOF (type (currentToken (createStream (SpecLexer.tokenize input))))
  = false ->
  SpecParser.parseExpression (createStream (SpecLexer.tokenize input))
  = Throw error ->
  outcome specStages input fieldSchemas = Normal (error_result [error])
  /\ at_token (SpecLexer.tokenize input) error.
Proof.
  intros Hne Hthrow. split.
  - apply stage_throw_caught.
    now apply (parseExpression_throws specStages _ _ _
                                      (SpecLexer.tokenize input)).
  - exact (spec_parser_throws_at_token _ _ Hthrow).
Qed.

(** * The token at which the parser of section 4.2 stops *)


Section Tracks.

Context {A : Type} (rest : A -> TokenStream) (rt : list Token -> A -> A).





End Tracks.












(** * Further properties of [stringify] *)

Lemma append_nil_r (a : string) : a ++ "" = a.
Proof.
  induction a as [|x a IH]; [reflexivity|].
  change (String x (a ++ "") = String x a). now rewrite IH.
Qed.

Lemma append_empty (a b : string) : a ++ b = "" -> a = "" /\ b = "".
Proof. destruct a; [intros H; split; [reflexivity|exact H]|discriminate]. Qed.

Lemma append_cancel_l (a b c : string) : a ++ b = a ++ c -> b = c.
Proof.
  induction a as [|x a IH]; [easy|].
  change (String x (a ++ b) = String x (a ++ c) -> b = c).
  intros [= H]. now apply IH.
Qed.

Lemma occurrences_app (c : ascii) (a b : string) :
  occurrences c (a ++ b) = (occurrences c a + occurrences c b)%nat.
Proof.
  induction a as [|x a IH]; [reflexivity|].
  change (occurrences c (String x (a ++ b))
          = (occurrences c (String x a) + occurrences c b)%nat).
  cbn [occurrences]. rewrite IH. lia.
Qed.

(** X1. [stringify] does not read positions or lengths: an expression and
    the same expression with every position and length set to zero are
    printed alike. *)
Theorem stringify_erase (e : Expression) : stringify (erase e) = stringify e.
Proof.
  induction e as [v pl|p q pl|f v|f o v v2 pl|l IHl r IHr pl|l IHl r IHr pl
                  |e IH pl|f vs pl]; cbn [erase stringify].
  - reflexivity.
  - reflexivity.
  - reflexivity.
  - destruct v2; reflexivity.
  - now rewrite IHl, IHr.
  - now rewrite IHl, IHr.
  - now rewrite IH.
  - now rewrite map_map.
Qed.

Lemma quote_if_space_empty (v : string) : quote_if_space v = "" -> v = "".
Proof. unfold quote_if_space. destruct (JS.includes v " "); easy. Qed.

(** X2. [stringify] returns the empty text for one expression only, the
    search term whose value is empty. *)
Theorem stringify_empty_iff (e : Expression) :
  stringify e = "" <-> exists pl, e = SEARCH_TERM "" pl.
Proof.
  split; [|now intros [pl ->]].
  destruct e as [v pl|p q pl|f v|f o v v2 pl|l r pl|l r pl|e pl|f vs pl];
    cbn [stringify].
  - intros ->%quote_if_space_empty. now exists pl.
  - destruct q; [discriminate|]. now intros [_ [=]]%append_empty.
  - now intros (_ & [=])%append_empty.
  - destruct o; now intros (_ & [=])%append_empty.
  - discriminate.
  - discriminate.
  - discriminate.
  - now intros (_ & [=])%append_empty.
Qed.

(** X3. An AND and an OR with the same left operand are never printed
    alike. *)
Theorem stringify_and_not_or (l r r' : Expression) (pl pl' : PositionLength) :
  stringify (AND l r pl) <> stringify (OR l r' pl').
Proof.
  cbn [stringify]. intros H.
  apply (append_cancel_l "(") in H. apply append_cancel_l in H.
  discriminate.
Qed.

Lemma no_parens_zero (s : string) :
  no_parens s = true -> occurrences "(" s = 0%nat /\ occurrences ")" s = 0%nat.
Proof.
  unfold no_parens. intros [H1 H2]%andb_true_iff.
  now apply Nat.eqb_eq in H1, H2.
Qed.

Lemma occurrences_quote_if_space (c : ascii) (v : string) :
  Ascii.eqb c JS.dquote_char = false ->
  occurrences c (quote_if_space v) = occurrences c v.
Proof.
  intros Hc. unfold quote_if_space.
  destruct (JS.includes v " "); [|reflexivity].
  rewrite !occurrences_app. unfold JS.dquote. cbn [occurrences].
  rewrite Hc. lia.
Qed.

Lemma occurrences_join_zero (c : ascii) (sep : string) (l : list string) :
  occurrences c sep = 0%nat ->
  Forall (fun s => occurrences c s = 0%nat) l ->
  occurrences c (JS.join sep l) = 0%nat.
Proof.
  intros Hsep. induction 1 as [|s l Hs Hl IH]; [reflexivity|].
  cbn [JS.join]. destruct l as [|s' l']; [exact Hs|].
  rewrite !occurrences_app, Hs, Hsep, IH. reflexivity.
Qed.

(** X4. When no field name, value or prefix of an expression holds a
    parenthesis, the text [stringify] prints has as many opening as
    closing parentheses. *)
Theorem stringify_parens_balanced (e : Expression) :
  paren_free e = true ->
  occurrences "(" (stringify e) = occurrences ")" (stringify e).
Proof.
  induction e as [v pl|p q pl|f v|f o v v2 pl|l IHl r IHr pl|l IHl r IHr pl
                  |e IH pl|f vs pl]; cbn [paren_free stringify].
  - intros [H1 H2]%no_parens_zero.
    rewrite !occurrences_quote_if_space by reflexivity. congruence.
  - intros [H1 H2]%no_parens_zero.
    destruct q; rewrite !occurrences_app, H1, H2; reflexivity.
  - intros [[H1 H2]%no_parens_zero [H3 H4]%no_parens_zero]%andb_true_iff.
    rewrite !occurrences_app, H1, H2, H3, H4. reflexivity.
  - intros [[[H1 H2]%no_parens_zero [H3 H4]%no_parens_zero]%andb_true_iff
              [H5 H6]%no_parens_zero]%andb_true_iff.
    destruct o; rewrite !occurrences_app, ?H1, ?H2, ?H3, ?H4, ?H5, ?H6;
      reflexivity.
  - intros [Hl Hr]%andb_true_iff.
    rewrite !occurrences_app, (IHl Hl), (IHr Hr). cbn [occurrences Ascii.eqb].
    cbn. lia.
  - intros [Hl Hr]%andb_true_iff.
    rewrite !occurrences_app, (IHl Hl), (IHr Hr). cbn. lia.
  - intros He. rewrite !occurrences_app, (IH He). cbn. lia.
  - intros [[H1 H2]%no_parens_zero Hvs]%andb_true_iff.
    rewrite !occurrences_app, H1, H2.
    rewrite !occurrences_join_zero; try reflexivity.
    + apply List.Forall_forall. intros s (v & <- & Hv)%in_map_iff.
      rewrite occurrences_quote_if_space by reflexivity.
      rewrite forallb_forall in Hvs. now apply no_parens_zero, Hvs.
    + apply List.Forall_forall. intros s (v & <- & Hv)%in_map_iff.
      rewrite occurrences_quote_if_space by reflexivity.
      rewrite forallb_forall in Hvs. now apply no_parens_zero, Hvs.
Qed.

(** * Further properties of [validateInExpression] *)

Lemma validateInExpression_explicit (expr : InExpression)
      (errors : list ValidationError) :
  exists (e1 e2 : ValidationError) (mk : string -> Z -> ValidationError),
    validateInExpression expr errors
    = (errors
         ++ (if field_pattern_test (field expr) then [] else [e1])
         ++ (if is_reserved (field expr) then [e2] else [])
         ++ map (fun '(i, v) => mk v i)
              (List.filter (fun '(_, v) => has_comma v)
                           (indexed 0 (values expr))))%list
    /\ code e1 = Some INVALID_FIELD_CHARS
    /\ span_of e1 = (position expr, JS.strlen (field expr))
    /\ code e2 = Some RESERVED_WORD_AS_FIELD
    /\ span_of e2 = (position expr, JS.strlen (field expr))
    /\ (forall v i, code (mk v i) = Some INVALID_IN_VALUE)
    /\ (forall v i, span_of (mk v i) = in_value_span expr (i, v)).
Proof.
  unfold validateInExpression.
  rewrite reserved_decide.
  set (e1 := mkError "Invalid characters in field name" _ _ _).
  set (e2 := mkError (field expr ++ " is a reserved word") _ _ _).
  set (mk := fun (value : string) (index : Z) =>
               mkError "Invalid character in IN value" (Some INVALID_IN_VALUE)
                       None
                       (mkPL (position expr + JS.strlen (field expr) + 3
                              + index * (JS.strlen value + 1))
                             (JS.strlen value))).
  exists e1, e2, mk. split; [|now repeat split].
  change (fun (errors0 : list ValidationError) (value : string) (index : Z) =>
            if JS.includes value "," then push errors0 (mk value index)
            else errors0)
    with (fun (errors0 : list ValidationError) (value : string) (index : Z) =>
            if (fun v => JS.includes v ",") value
            then push errors0 (mk value index) else errors0).
  rewrite (forEach_push (fun v => JS.includes v ",") mk).
  assert (Hf : List.filter (fun '(_, v) => JS.includes v ",")
                           (indexed 0 (values expr))
               = List.filter (fun '(_, v) => has_comma v)
                             (indexed 0 (values expr)))
    by (apply filter_ext; intros [i v]; apply includes_char).
  rewrite Hf. unfold push.
  destruct (field_pattern_test (field expr)), (is_reserved (field expr));
    cbn [negb app]; rewrite <- ?app_assoc; reflexivity.
Qed.

(** X5. [validateInExpression] leaves the diagnostics it is given in place
    and what it adds does not depend on them: diagnostics put in front of
    the list stay in front of the result. *)
Theorem validateInExpression_frame (expr : InExpression)
      (before errors : list ValidationError) :
  validateInExpression expr (before ++ errors)
  = (before ++ validateInExpression expr errors)%list.
Proof.
  unfold validateInExpression.
  set (mk := fun (value : string) (index : Z) =>
               mkError "Invalid character in IN value" (Some INVALID_IN_VALUE)
                       None
                       (mkPL (position expr + JS.strlen (field expr) + 3
                              + index * (JS.strlen value + 1))
                             (JS.strlen value))).
  change (fun (errors0 : list ValidationError) (value : string) (index : Z) =>
            if JS.includes value "," then push errors0 (mk value index)
            else errors0)
    with (fun (errors0 : list ValidationError) (value : string) (index : Z) =>
            if (fun v => JS.includes v ",") value
            then push errors0 (mk value index) else errors0).
  rewrite !(forEach_push (fun v => JS.includes v ",") mk). unfold push.
  destruct (field_pattern_test (field expr)),
    (bool_decide (JS.toUpperCase (field expr) ∈ reservedWords));
    cbn [negb]; now rewrite <- ?app_assoc.
Qed.

Lemma upper_char_alpha (c : ascii) :
  JS.is_upper (JS.upper_char c) = true -> JS.is_alpha c = true.
Proof.
  destruct c as [[] [] [] [] [] [] [] []]; vm_compute; intros H;
    first [reflexivity | discriminate H].
Qed.

Lemma toUpperCase_alpha (f : string) :
  forallb JS.is_upper (JS.chars (JS.toUpperCase f)) = true ->
  forallb JS.is_alpha (JS.chars f) = true.
Proof.
  unfold JS.chars. induction f as [|c f IH]; [reflexivity|].
  cbn [JS.toUpperCase list_ascii_of_string forallb].
  intros [Hc Hf]%andb_true_iff.
  now rewrite (upper_char_alpha c Hc), IH.
Qed.

Lemma alpha_field_pattern (f : string) :
  f <> "" ->
  forallb JS.is_alpha (JS.chars f) = true ->
  field_pattern_test f = true.
Proof.
  destruct f as [|c f]; [easy|]. intros _.
  unfold JS.chars. cbn [list_ascii_of_string forallb field_pattern_test].
  intros [Hc Hf]%andb_true_iff. rewrite Hc. cbn [andb].
  unfold JS.chars. rewrite forallb_forall in Hf |- *.
  intros x Hx. unfold is_field_char. now rewrite (Hf x Hx).
Qed.

Lemma reserved_passes_pattern (f : string) :
  is_reserved f = true -> field_pattern_test f = true.
Proof.
  unfold is_reserved. cbn [existsb].
  rewrite !orb_true_iff, !String.eqb_eq.
  intros H. apply alpha_field_pattern.
  - intros ->. cbn in H. intuition discriminate.
  - apply toUpperCase_alpha.
    destruct H as [H|[H|[H|[H|H]]]]; try discriminate H;
      rewrite H; reflexivity.
Qed.

Lemma indexed_from (A : Type) (arr : list A) :
  forall (k i : Z) (x : A), In (i, x) (indexed k arr) -> k <= i /\ In x arr.
Proof.
  induction arr as [|y arr IH]; intros k i x; cbn [indexed In]; [easy|].
  intros [[= <- <-]|H]; [split; [lia|now left]|].
  apply IH in H as [H1 H2]. split; [lia|now right].
Qed.

Lemma indexed_length (A : Type) (arr : list A) :
  forall k : Z, List.length (indexed k arr) = List.length arr.
Proof.
  induction arr as [|y arr IH]; intros k; cbn; [reflexivity|].
  now rewrite IH.
Qed.

Lemma filter_indexed_nil (A : Type) (keep : A -> bool) (arr : list A) :
  forall k : Z,
    List.filter (fun '(_, v) => keep v) (indexed k arr) = []
    <-> forallb (fun v => negb (keep v)) arr = true.
Proof.
  induction arr as [|y arr IH]; intros k; cbn [indexed List.filter forallb];
    [easy|].
  destruct (keep y); cbn [negb andb]; [easy|apply IH].
Qed.

Lemma app_eq_self (A : Type) (l added : list A) :
  (l ++ added)%list = l <-> added = [].
Proof.
  split; [|intros ->; apply app_nil_r].
  intros H. apply (app_inv_head l). now rewrite app_nil_r.
Qed.

(** X6. [validateInExpression] returns the list it was given unchanged
    exactly when the field name passes the pattern, is not a reserved word
    in any case, and no entry holds a comma. *)
Theorem validateInExpression_clean_iff :
  forall (expr : InExpression) (errors : list ValidationError),
    validateInExpression expr errors = errors
    <-> field_pattern_test (field expr) = true
        /\ is_reserved (field expr) = false
        /\ comma_free (values expr) = true.
Proof.
  intros expr errors.
  destruct (validateInExpression_explicit expr errors)
    as (e1 & e2 & mk & -> & _).
  rewrite app_eq_self. unfold comma_free.
  rewrite <- (filter_indexed_nil _ has_comma (values expr) 0).
  destruct (field_pattern_test (field expr)), (is_reserved (field expr));
    cbn [app]; split; try easy; try (intros (? & ? & ?); discriminate).
  all: try (intros H; repeat split; now destruct (List.filter _ _)).
  all: try (intros (_ & _ & ->); reflexivity).
Qed.

(** X7. For a field name of ASCII characters: a reserved word passes the
    pattern of field names, so [validateInExpression] raises at most one
    of INVALID_FIELD_CHARS and RESERVED_WORD_AS_FIELD for a node, and adds
    at most one diagnostic more than the node has entries. *)
Theorem validateInExpression_one_field_diagnostic :
  forall (expr : InExpression) (errors : list ValidationError),
    is_ascii_text (field expr) = true ->
    exists added : list ValidationError,
      validateInExpression expr errors = (errors ++ added)%list
      /\ (count_code INVALID_FIELD_CHARS added
          + count_code RESERVED_WORD_AS_FIELD added <= 1)%nat
      /\ (List.length added <= 1 + List.length (values expr))%nat.
Proof.
  intros expr errors _.
  destruct (validateInExpression_explicit expr errors)
    as (e1 & e2 & mk & -> & Hc1 & _ & Hc2 & _ & Hmk & _).
  eexists. split; [reflexivity|].
  pose proof (reserved_passes_pattern (field expr)) as Hrp.
  assert (Hlen : (List.length
                    (map (fun '(i, v) => mk v i)
                         (List.filter (fun '(_, v) => has_comma v)
                                      (indexed 0 (values expr))))
                  <= List.length (values expr))%nat).
  { rewrite List.length_map, <- (indexed_length _ (values expr) 0).
    apply List.filter_length_le. }
  rewrite !count_code_app. unfold count_code.
  rewrite !(filter_code_map _ (fun '(i, v) => mk v i) false)
    by (intros [i v]; now rewrite (has_code_of_code _ _ _ (Hmk v i))).
  rewrite !List.length_app.
  unfold has_code in *.
  destruct (field_pattern_test (field expr)), (is_reserved (field expr));
    cbn [List.filter List.length app];
    rewrite ?Hc1, ?Hc2; cbn; split; lia.
Qed.

Lemma validateInExpression_one_field_diagnostic_witness :
  is_ascii_text (field two_comma_entries) = true
  /\ exists added : list ValidationError,
      validateInExpression two_comma_entries [] = added
      /\ (count_code INVALID_FIELD_CHARS added
          + count_code RESERVED_WORD_AS_FIELD added <= 1)%nat
      /\ (List.length added <= 1 + List.length (values two_comma_entries))%nat.
Proof.
  split; [reflexivity|].
  exact (validateInExpression_one_field_diagnostic two_comma_entries []
                                                   eq_refl).
Defined.

(** X8. Every diagnostic [validateInExpression] adds has a code, a length
    that is not negative, and a position at or after the start of the
    node. *)
Theorem validateInExpression_diagnostics_placed :
  forall (expr : InExpression) (errors : list ValidationError),
    exists added : list ValidationError,
      validateInExpression expr errors = (errors ++ added)%list
      /\ Forall (fun d : ValidationError =>
                   position expr <= position d /\ 0 <= length d
                   /\ code d <> None) added.
Proof.
  intros expr errors.
  destruct (validateInExpression_explicit expr errors)
    as (e1 & e2 & mk & -> & Hc1 & Hs1 & Hc2 & Hs2 & Hmk & Hsmk).
  eexists. split; [reflexivity|].
  assert (Hlen : forall s, 0 <= JS.strlen s) by (intros s; unfold JS.strlen; lia).
  injection Hs1 as Hp1 Hl1. injection Hs2 as Hp2 Hl2.
  repeat apply Forall_app_2.
  - destruct (field_pattern_test _); constructor; [|constructor].
    rewrite Hp1, Hl1, Hc1. repeat split; [lia|apply Hlen|discriminate].
  - destruct (is_reserved _); constructor; [|constructor].
    rewrite Hp2, Hl2, Hc2. repeat split; [lia|apply Hlen|discriminate].
  - apply List.Forall_forall. intros d ([i v] & <- & Hin)%in_map_iff.
    apply filter_In in Hin as [Hin _].
    apply indexed_from in Hin as [Hi _].
    specialize (Hsmk v i). unfold in_value_span, span_of in Hsmk.
    injection Hsmk as Hp Hl. rewrite Hp, Hl, Hmk.
    pose proof (Hlen v). pose proof (Hlen (field expr)).
    repeat split; [nia|lia|discriminate].
Qed.

(** * Further properties of the merge of diagnostics *)

Lemma surviving_nil (fieldErrors : list ValidationError) :
  surviving [] fieldErrors = fieldErrors.
Proof.
  unfold surviving. induction fieldErrors as [|fe l IH]; [reflexivity|].
  cbn [List.filter existsb negb]. f_equal. exact IH.
Qed.

Lemma merge_perm (errors fieldErrors : list ValidationError) :
  Permutation (mergeErrors errors fieldErrors)
              (errors ++ surviving errors fieldErrors).
Proof.
  unfold mergeErrors. rewrite fieldErrorsFiltered_surviving.
  apply sort_perm.
Qed.

(** X9. The merged list is empty exactly when both validators found
    nothing: the merge never hides every diagnostic. *)
Theorem mergeErrors_nil_iff :
  forall errors fieldErrors : list ValidationError,
    mergeErrors errors fieldErrors = [] <-> errors = [] /\ fieldErrors = [].
Proof.
  intros errors fieldErrors. split.
  - intros H. pose proof (merge_perm errors fieldErrors) as Hp.
    rewrite H in Hp. apply Permutation_nil in Hp.
    apply app_eq_nil in Hp as [-> Hs]. now rewrite surviving_nil in Hs.
  - now intros [-> ->].
Qed.

(** X10. The merge keeps every structural-validator entry, yields only
    entries of one of the two lists, and yields at least as many entries
    as the structural list has and at most as many as both lists have. *)
Theorem mergeErrors_members :
  forall (errors fieldErrors : list ValidationError) (e : ValidationError),
    (In e errors -> In e (mergeErrors errors fieldErrors))
    /\ (In e (mergeErrors errors fieldErrors) ->
        In e errors \/ In e fieldErrors)
    /\ (List.length errors <= List.length (mergeErrors errors fieldErrors)
        <= List.length errors + List.length fieldErrors)%nat.
Proof.
  intros errors fieldErrors e.
  pose proof (merge_perm errors fieldErrors) as Hp.
  split; [|split].
  - intros He. apply (Permutation_in _ (Permutation_sym Hp)).
    apply in_or_app. now left.
  - intros He. apply (Permutation_in _ Hp) in He.
    apply in_app_or in He as [He|He]; [now left|right].
    unfold surviving in He. now apply filter_In in He.
  - rewrite (Permutation_length Hp), List.length_app.
    pose proof (List.filter_length_le
                  (fun fe => negb (existsb (same_span fe) errors))
                  fieldErrors) as Hle.
    unfold surviving. lia.
Qed.

Lemma merge_sorted (errors fieldErrors : list ValidationError) :
  StronglySorted position_le (mergeErrors errors fieldErrors).
Proof.
  unfold mergeErrors.
  change (fun a b : ValidationError => position a - position b)
    with by_position.
  apply sort_sorted.
Qed.

Lemma sort_sorted_id (l : list ValidationError) :
  StronglySorted position_le l -> sort by_position l = l.
Proof.
  induction 1 as [|x l Hl IH Hx]; [reflexivity|].
  cbn [sort fold_right]. fold (sort by_position l). rewrite IH.
  destruct Hx as [|y l' Hy _]; [reflexivity|].
  cbn [sort_insert]. unfold by_position, position_le in *.
  destruct (Z.leb_spec (position x - position y) 0); [reflexivity|lia].
Qed.

(** X11. When the structural entries followed by the schema entries that
    collide with none of them already ascend by position, the merge
    returns exactly that list. *)
Theorem mergeErrors_sorted_unchanged :
  forall errors fieldErrors : list ValidationError,
    StronglySorted position_le (errors ++ surviving errors fieldErrors) ->
    mergeErrors errors fieldErrors
    = (errors ++ surviving errors fieldErrors)%list.
Proof.
  intros errors fieldErrors Hs. unfold mergeErrors.
  rewrite fieldErrorsFiltered_surviving.
  now apply sort_sorted_id.
Qed.

(** * Further properties of [parseSearchInputQuery] *)

(** X12. [parseSearchInputQuery] returns the SEARCH_QUERY with the
    expression [e] exactly when the input has tokens, the parser returns
    with nothing left over, both validators return, the merged list is
    empty, and [transformToExpression] returns [e]. *)
Theorem usable_expression_iff :
  forall (st : Stages) (input : string) (fieldSchemas : list FieldSchema)
         (e : Expression),
    outcome st input fieldSchemas
    = Normal (mkResult SEARCH_QUERY (Some e) None)
    <-> exists tree : FirstPass.FirstPassExpression,
        Parsed st input tree
        /\ Merged st input fieldSchemas []
        /\ transformToExpression st tree (schemaMap_of fieldSchemas)
           = Normal e.
Proof.
  intros st input fieldSchemas e. split.
  - unfold outcome. rewrite parseSearchInputQuery_run, try_block_cases.
    destruct (tokenize st input) as [tokens|x] eqn:Hk; [|discriminate].
    destruct (is_EOF (type (currentToken (createStream tokens)))) eqn:Hne;
      [discriminate|].
    destruct (parseExpression st (createStream tokens)) as [result|x] eqn:Hr;
      [|discriminate].
    destruct (is_EOF (type (currentToken (FirstPass.stream result)))) eqn:He;
      [|discriminate].
    assert (Hp : Parsed st input (FirstPass.result result))
      by (econstructor; eassumption).
    destruct (validateSearchQuery st (FirstPass.result result))
      as [errors|x] eqn:Hv; [|discriminate].
    cbn zeta.
    destruct (fieldErrors_of st (FirstPass.result result) fieldSchemas)
      as [fieldErrors|x] eqn:Hf; [|discriminate].
    destruct (mergeErrors errors fieldErrors) as [|x l] eqn:Hm;
      [|discriminate].
    destruct (transformToExpression _ _ _) as [expression|x] eqn:Ht;
      [|discriminate].
    intros [= <-]. exists (FirstPass.result result).
    split; [exact Hp|]. split; [|exact Ht].
    rewrite <- Hm. econstructor; eassumption.
  - intros (tree & Hp & Hm & Ht).
    apply Merged_inv in Hm as (tree' & errors & fieldErrors & Hp' & Hv & Hf
                               & Hnil).
    rewrite <- (Parsed_unique _ _ _ _ Hp Hp') in Hv, Hf. clear Hp'.
    apply Parsed_inv in Hp as (k & r & Hk & Hne & Hr & He & ->).
    along_path. now rewrite <- Hnil.
Qed.

(** X13. The stages are called in the order tokenizer, parser, structural
    validator, schema validator, transformer, each at most once and the
    tokenizer always first; the schema validator is called only when
    there are schemas. *)
Theorem stages_in_pipeline_order :
  forall (st : Stages) (input : string) (fieldSchemas : list FieldSchema),
    sublist (stages_called st input fieldSchemas) pipeline_order
    /\ head (stages_called st input fieldSchemas) = Some TOKENIZE
    /\ (In VALIDATE_EXPRESSION_FIELDS (stages_called st input fieldSchemas)
        -> fieldSchemas <> []).
Proof.
  intros st input fieldSchemas. unfold stages_called, pipeline_order.
  rewrite parseSearchInputQuery_run, try_block_cases.
  assert (Hlen : (0 <? List.length fieldSchemas)%nat = true
                 -> fieldSchemas <> []) by (now intros H ->).
  destruct (0 <? List.length fieldSchemas)%nat;
    destruct (tokenize st input) as [tokens|x1];
    try destruct (is_EOF (type (currentToken (createStream tokens))));
    try destruct (parseExpression st (createStream tokens)) as [result|x2];
    try destruct (is_EOF (type (currentToken (FirstPass.stream result))));
    try destruct (validateSearchQuery st (FirstPass.result result))
      as [errors|x3];
    cbn zeta;
    try destruct (fieldErrors_of st (FirstPass.result result) fieldSchemas)
      as [fieldErrors|x4];
    try destruct (mergeErrors errors fieldErrors) as [|d l];
    try destruct (transformToExpression _ _ _) as [expression|x5];
    cbn [snd app];
    (split;
     [repeat first [apply sublist_nil | apply sublist_skip
                   | apply sublist_cons]
     |split; [reflexivity|]]);
    first [intros _; now apply Hlen | cbn; intuition discriminate].
Qed.

(** X14. With an empty list of schemas [validateExpressionFields] is not
    called, and the result is the same whatever that function is. *)
Theorem no_schemas_skips_field_validation :
  forall (st : Stages) (input : string)
         (f : FirstPass.FirstPassExpression -> gset string ->
              list ValidationError -> gmap string FieldSchema ->
              Completion (list ValidationError)),
    ~ In VALIDATE_EXPRESSION_FIELDS (stages_called st input [])
    /\ outcome (with_field_validator st f) input [] = outcome st input [].
Proof.
  intros st input f. split.
  - unfold stages_called.
    rewrite parseSearchInputQuery_run, try_block_cases.
    destruct (tokenize st input) as [tokens|x1];
      try destruct (is_EOF (type (currentToken (createStream tokens))));
      try destruct (parseExpression st (createStream tokens))
        as [result|x2];
      try destruct (is_EOF (type (currentToken (FirstPass.stream result))));
      try destruct (validateSearchQuery st (FirstPass.result result))
        as [errors|x3];
      cbn zeta;
      try destruct (fieldErrors_of st (FirstPass.result result) [])
        as [fieldErrors|x4];
      try destruct (mergeErrors errors fieldErrors) as [|d l];
      try destruct (transformToExpression _ _ _) as [expression|x5];
      cbn; intuition discriminate.
  - unfold outcome.
    rewrite !parseSearchInputQuery_run, !try_block_cases. reflexivity.
Qed.

Lemma lower_char_idem (c : ascii) :
  JS.lower_char (JS.lower_char c) = JS.lower_char c.
Proof. destruct c as [[] [] [] [] [] [] [] []]; reflexivity. Qed.

Lemma toLowerCase_idem (s : string) :
  JS.toLowerCase (JS.toLowerCase s) = JS.toLowerCase s.
Proof.
  induction s as [|c s IH]; [reflexivity|].
  cbn [JS.toLowerCase]. now rewrite lower_char_idem, IH.
Qed.

Lemma Map_of_entries_from {V : Type} (entries : list (string * V)) :
  forall m : gmap string V,
    dom (fold_left (fun m kv => <[fst kv := snd kv]> m) entries m)
    = dom m ∪ list_to_set (map fst entries).
Proof.
  induction entries as [|[k v] entries IH]; intros m; cbn [fold_left map].
  - cbn. set_solver.
  - rewrite IH, dom_insert_L. cbn [fst snd list_to_set]. set_solver.
Qed.

Lemma Map_of_entries_keyed {V : Type} (key : V -> string)
      (entries : list (string * V)) :
  Forall (fun kv => key (snd kv) = fst kv) entries ->
  forall m : gmap string V,
    (forall k v, m !! k = Some v -> key v = k) ->
    forall k v,
      fold_left (fun m kv => <[fst kv := snd kv]> m) entries m !! k = Some v ->
      key v = k.
Proof.
  induction 1 as [|[k0 v0] entries Hkv _ IH]; intros m Hm k v;
    cbn [fold_left]; [apply Hm|].
  apply IH. intros k' v'. cbn [fst snd] in *.
  destruct (decide (k0 = k')) as [<-|Hne].
  - rewrite lookup_insert_eq. now intros [= <-].
  - rewrite lookup_insert_ne by exact Hne. apply Hm.
Qed.

Lemma Map_of_entries_other {V : Type} (k : string)
      (entries : list (string * V)) :
  Forall (fun kv => fst kv <> k) entries ->
  forall m : gmap string V,
    fold_left (fun m kv => <[fst kv := snd kv]> m) entries m !! k = m !! k.
Proof.
  induction 1 as [|[k0 v0] entries Hk _ IH]; intros m; cbn [fold_left];
    [reflexivity|].
  rewrite IH. cbn [fst snd] in *. now apply lookup_insert_ne.
Qed.

(** X15. The keys of the schema map the driver builds are the members of
    the column set it builds; every key is the lower-cased name of the
    schema it maps to; and of several schemas with one lower-cased name
    the last is the one kept: a schema that no schema of the same
    lower-cased name follows is the one found under that name. *)
Theorem schemaMap_matches_columnSet :
  forall fieldSchemas : list FieldSchema,
    dom (schemaMap_of fieldSchemas) = columnSet_of fieldSchemas
    /\ (forall (k : string) (s : FieldSchema),
           schemaMap_of fieldSchemas !! k = Some s ->
           JS.toLowerCase (name s) = k)
    /\ (forall (before after : list FieldSchema) (s : FieldSchema),
           fieldSchemas = (before ++ s :: after)%list ->
           Forall (fun s' => JS.toLowerCase (name s')
                             <> JS.toLowerCase (name s)) after ->
           schemaMap_of fieldSchemas !! JS.toLowerCase (name s) = Some s).
Proof.
  intros fieldSchemas. unfold schemaMap_of, columnSet_of, Map_of_entries.
  split; [|split].
  - rewrite Map_of_entries_from, dom_empty_L, !map_map. cbn [fst].
    rewrite (map_ext (fun x => JS.toLowerCase (JS.toLowerCase (name x)))
                     (fun x => JS.toLowerCase (name x)))
      by (intros x; apply toLowerCase_idem).
    set_solver.
  - apply (Map_of_entries_keyed (fun s => JS.toLowerCase (name s))).
    + apply List.Forall_forall. now intros kv (s & <- & _)%in_map_iff.
    + intros k v. now rewrite lookup_empty.
  - intros before after s -> Hafter.
    rewrite map_app, fold_left_app. cbn [map fold_left fst snd].
    rewrite Map_of_entries_other; [apply lookup_insert_eq|].
    apply List.Forall_forall. intros kv (s' & <- & Hs')%in_map_iff.
    cbn [fst]. rewrite List.Forall_forall in Hafter. now apply Hafter.
Qed.

(** X16. Whatever the stages do, the list of errors of a result ascends
    by position. *)
Theorem error_lists_ascend :
  forall (st : Stages) (input : string) (fieldSchemas : list FieldSchema),
    exists r : QueryResult,
      outcome st input fieldSchemas = Normal r
      /\ (forall errs : list ValidationError,
             errors r = Some errs -> StronglySorted position_le errs).
Proof.
  intros st input fieldSchemas. unfold outcome.
  rewrite parseSearchInputQuery_run, try_block_cases.
  assert (Hone : forall (e : ValidationError) errs,
             Some [e] = Some errs -> StronglySorted position_le errs).
  { intros e errs [= <-]. repeat constructor. }
  destruct (tokenize st input) as [tokens|x1];
    try destruct (is_EOF (type (currentToken (createStream tokens))));
    try destruct (parseExpression st (createStream tokens)) as [result|x2];
    try destruct (is_EOF (type (currentToken (FirstPass.stream result))));
    try destruct (validateSearchQuery st (FirstPass.result result))
      as [errors|x3];
    cbn zeta;
    try destruct (fieldErrors_of st (FirstPass.result result) fieldSchemas)
      as [fieldErrors|x4];
    try destruct (mergeErrors errors fieldErrors) as [|d l] eqn:Hm;
    try destruct (transformToExpression _ _ _) as [expression|x5];
    eexists; (split; [reflexivity|]); cbn;
    try (apply Hone); try discriminate.
  intros errs [= <-]. rewrite <- Hm.
  apply merge_sorted.
Qed.

(** The theorems with a precondition, at the sample values. *)

Lemma stringify_parens_balanced_witness :
  paren_free sample_expression = true
  /\ occurrences "(" (stringify sample_expression)
     = occurrences ")" (stringify sample_expression).
Proof.
  split; [reflexivity|].
  apply (stringify_parens_balanced sample_expression). reflexivity.
Defined.

Lemma mergeErrors_sorted_unchanged_witness :
  mergeErrors [sample_structural_error] [sample_schema_error]
  = [sample_structural_error; sample_schema_error].
Proof.
  apply (mergeErrors_sorted_unchanged [sample_structural_error]
                                      [sample_schema_error]).
  repeat constructor. unfold position_le. cbn. lia.
Defined.
